(** * ChatSystem: a shallow embedding of [chat-system.js]

    The widget of [chat-system.js] is a JavaScript class whose methods
    mutate the object's fields and the host document, and whose [async]
    methods suspend at [await fetch(...)].  The embedding below keeps that
    shape:

    - JavaScript strings are sequences of UTF-16 code units ([jsstring]);
    - the object's fields, the elements of the document it touches and the
      browser's timers and in-flight requests are explicit records;
    - synchronous methods are computations in a small state-and-exception
      monad ([M]); a [TypeError] on a missing element is a [Throw];
    - an [async] method is cut at each [await]: the part before the
      [await] registers a suspended task, the part after it runs when the
      event loop delivers the response ([step]). *)

From Stdlib Require Import ZArith NArith List String Ascii Lia Bool.
From Stdlib Require QArith.
From stdpp Require Import base list strings pretty.

Local Open Scope Z_scope.

(** ** Strings *)

(** A JavaScript string: its UTF-16 code units. *)
Definition jsstring := list N.

(** The code units of an ASCII literal of the source. *)
Definition js (s : string) : jsstring :=
  map N_of_ascii (list_ascii_of_string s).

(** The double quote, which delimits attribute values in the templates. *)
Definition dquote : N := 34%N.

(** A line break of a template literal followed by its indentation. *)
Definition nl (indent : nat) : jsstring := 10%N :: repeat 32%N indent.

(** [WhiteSpace] and [LineTerminator] code units of ECMAScript, the ones
    [String.prototype.trim] removes. *)
Definition is_ws (c : N) : bool :=
  ((9 <=? c) && (c <=? 13) || (c =? 32) || (c =? 160) || (c =? 5760)
   || (8192 <=? c) && (c <=? 8202) || (c =? 8232) || (c =? 8233)
   || (c =? 8239) || (c =? 8287) || (c =? 12288) || (c =? 65279))%N.

Fixpoint trimStart (s : jsstring) : jsstring :=
  match s with
  | [] => []
  | c :: rest => if is_ws c then trimStart rest else s
  end.

Definition trimEnd (s : jsstring) : jsstring := rev (trimStart (rev s)).

(** [text.trim()] *)
Definition trim (s : jsstring) : jsstring := trimEnd (trimStart s).

(** ** Messages and configuration *)

(** A message as the server returns it (field names of the JSON body). *)
Record Message := mkMessage {
  sender_id : Z;
  sender_name : jsstring;
  message_text : jsstring;
  sent_at : Z                       (* time value of [new Date(sent_at)], ms *)
}.

(** The logged-in user handed to [open]; only [id] is read. *)
Record User := mkUser { user_id : Z }.

(** The [options] argument of the constructor: a key is absent or present. *)
Record UserOptions := mkUserOptions {
  opt_apiUrl : option jsstring;
  opt_pollInterval : option Z;
  opt_maxMessageLength : option Z
}.

(** [this.options] *)
Record Options := mkOptions {
  apiUrl : jsstring;
  pollInterval : Z;
  maxMessageLength : Z
}.

(** [o.key || dflt] on a key that may be absent. *)
Definition or_default {A} (truthy : A -> bool) (o : option A) (dflt : A) : A :=
  match o with
  | Some v => if truthy v then v else dflt
  | None => dflt
  end.

(** A key present in [options] is copied by the object spread. *)
Definition spread {A} (o : option A) (current : A) : A :=
  match o with
  | Some v => v
  | None => current
  end.

Definition truthy_string (s : jsstring) : bool :=
  match s with [] => false | _ => true end.

Definition truthy_number (n : Z) : bool := negb (n =? 0).

(** The configuration object built by the constructor: the three defaulted
    keys first, then [...options] on top of them. *)
Definition build_options (o : UserOptions) : Options :=
  let apiUrl0 := or_default truthy_string (opt_apiUrl o) (js "http://localhost:3000/api") in
  let pollInterval0 := or_default truthy_number (opt_pollInterval o) 3000 in
  let maxMessageLength0 := or_default truthy_number (opt_maxMessageLength o) 1000 in
  {| apiUrl := spread (opt_apiUrl o) apiUrl0;
     pollInterval := spread (opt_pollInterval o) pollInterval0;
     maxMessageLength := spread (opt_maxMessageLength o) maxMessageLength0 |}.

Definition no_options : UserOptions := mkUserOptions None None None.

(** ** Renderer *)

(** [escapeHtml]: the text is stored in a fresh element's [textContent] and
    read back through [innerHTML]; the serialisation of a text node replaces
    [&], the no-break space, [<] and [>]. *)
Definition escape_unit (c : N) : jsstring :=
  if (c =? 38)%N then js "&amp;"
  else if (c =? 160)%N then js "&nbsp;"
  else if (c =? 60)%N then js "&lt;"
  else if (c =? 62)%N then js "&gt;"
  else [c].

Definition escapeHtml (text : jsstring) : jsstring :=
  concat (map escape_unit text).

(** The placeholder written when there is no message. *)
Definition empty_html : jsstring :=
  nl 16 ++ js "<div class=" ++ [dquote] ++ js "chat-empty" ++ [dquote] ++ js ">"
  ++ nl 20 ++ js "<i class=" ++ [dquote] ++ js "fas fa-comments" ++ [dquote] ++ js "></i>"
  ++ nl 20 ++ js "<p>No messages yet. Start the conversation!</p>"
  ++ nl 16 ++ js "</div>"
  ++ nl 12.

Section Renderer.

(** [date.toLocaleDateString()] depends on the host's locale and time
    zone; it is a parameter of the renderer. *)
Variable toLocaleDateString : Z -> jsstring.

(** [formatTime(timestamp)], with [now] the time value of [new Date()].
    Time values are integers, so [Math.floor(x / k)] is [x / k] on [Z]. *)
Definition formatTime (now timestamp : Z) : jsstring :=
  let diffMs := now - timestamp in
  let diffMins := diffMs / 60000 in
  if diffMins <? 1 then js "Just now"
  else if diffMins <? 60 then js (pretty diffMins) ++ js "m ago"
  else
    let diffHours := diffMins / 60 in
    if diffHours <? 24 then js (pretty diffHours) ++ js "h ago"
    else toLocaleDateString timestamp.

Definition messageClass (viewer : User) (msg : Message) : jsstring :=
  if sender_id msg =? user_id viewer
  then js "chat-message-sent" else js "chat-message-received".

(** The four literal pieces of the message template, between its three
    interpolated values. *)
Definition tpl_head (cls : jsstring) : jsstring :=
  nl 16 ++ js "<div class=" ++ [dquote] ++ js "chat-message " ++ cls ++ [dquote] ++ js ">"
  ++ nl 20 ++ js "<div class=" ++ [dquote] ++ js "chat-message-header" ++ [dquote] ++ js ">"
  ++ nl 24 ++ js "<span class=" ++ [dquote] ++ js "chat-message-sender" ++ [dquote] ++ js ">".

Definition tpl_after_sender : jsstring :=
  js "</span>"
  ++ nl 24 ++ js "<span class=" ++ [dquote] ++ js "chat-message-time" ++ [dquote] ++ js ">".

Definition tpl_after_time : jsstring :=
  js "</span>"
  ++ nl 20 ++ js "</div>"
  ++ nl 20 ++ js "<div class=" ++ [dquote] ++ js "chat-message-content" ++ [dquote] ++ js ">"
  ++ nl 24.

Definition tpl_tail : jsstring :=
  nl 20 ++ js "</div>" ++ nl 16 ++ js "</div>" ++ nl 12.

(** The callback of [this.messages.map(...)]. *)
Definition render_message (now : Z) (viewer : User) (msg : Message) : jsstring :=
  tpl_head (messageClass viewer msg)
  ++ escapeHtml (sender_name msg)
  ++ tpl_after_sender
  ++ formatTime now (sent_at msg)
  ++ tpl_after_time
  ++ message_text msg
  ++ tpl_tail.

(** [this.messages.map(...).join('')] *)
Definition render_html (now : Z) (viewer : User) (msgs : list Message) : jsstring :=
  concat (map (render_message now viewer) msgs).

End Renderer.

(** ** The widget, the document and the browser *)

(** [this.messageInput] *)
Record InputEl := mkInput {
  value : jsstring;
  input_disabled : bool
}.

(** [this.messagesContainer] *)
Record ContainerEl := mkContainer {
  innerHTML : jsstring;
  scrolledToBottom : bool           (* [scrollToBottom] ran since the markup was written *)
}.

(** The fields of a [ChatSystem] object. *)
Record Fields := mkFields {
  offerId : option Z;               (* [null] or the offer's number *)
  currentUser : option User;
  messages : list Message;
  pollingInterval : option nat;     (* [null] or a [setInterval] handle *)
  options : Options
}.

(** The elements the constructor looks up; [None] is an element that was
    not found ([getElementById] or [querySelector] returned nothing). *)
Record Dom := mkDom {
  modal : option jsstring;          (* [modal.style.display] *)
  chatTitle : option jsstring;      (* [textContent] *)
  messagesContainer : option ContainerEl;
  messageInput : option InputEl;
  sendButton : option bool;         (* [disabled] *)
  inputFocused : bool;              (* the input is the active element *)
  toasts : list jsstring;           (* [.chat-error] notices in [document.body] *)
  console : list jsstring           (* [console.error] lines *)
}.

(** Who called [loadMessages] and is waiting for it. *)
Inductive Caller :=
| FromTick                          (* the [setInterval] callback: nobody waits *)
| FromOpen                          (* [open]: then [startPolling] and focus *)
| FromSend.                         (* [sendMessage]: then its [finally] block *)

(** An [async] method suspended at [await fetch(...)]. *)
Inductive Task :=
| AwaitMessages (caller : Caller)   (* [loadMessages] *)
| AwaitPosted.                      (* [sendMessage] *)

Inductive Request :=
| GET (url : jsstring)
| POST (url : jsstring) (offer_id : option Z) (text : jsstring).

(** What the browser holds for the page: the active interval timers, the
    requests in flight with the task each will resume, the requests sent so
    far, the clock and the number of uncaught exceptions. *)
Record Browser := mkBrowser {
  intervals : list nat;
  lastHandle : nat;
  inflight : list (nat * Task);
  nextRequest : nat;
  network : list Request;
  clock : Z;
  uncaught : nat
}.

Record World := mkWorld {
  this : Fields;
  dom : Dom;
  env : Browser
}.

(** Field updates. *)
Definition set_offerId (v : option Z) (w : World) : World :=
  let t := this w in
  mkWorld (mkFields v (currentUser t) (messages t) (pollingInterval t) (options t))
          (dom w) (env w).

Definition set_currentUser (v : option User) (w : World) : World :=
  let t := this w in
  mkWorld (mkFields (offerId t) v (messages t) (pollingInterval t) (options t))
          (dom w) (env w).

Definition set_messages (v : list Message) (w : World) : World :=
  let t := this w in
  mkWorld (mkFields (offerId t) (currentUser t) v (pollingInterval t) (options t))
          (dom w) (env w).

Definition set_pollingInterval (v : option nat) (w : World) : World :=
  let t := this w in
  mkWorld (mkFields (offerId t) (currentUser t) (messages t) v (options t))
          (dom w) (env w).

Definition set_modal (v : option jsstring) (w : World) : World :=
  let d := dom w in
  mkWorld (this w)
          (mkDom v (chatTitle d) (messagesContainer d) (messageInput d)
                 (sendButton d) (inputFocused d) (toasts d) (console d))
          (env w).

Definition set_chatTitle (v : option jsstring) (w : World) : World :=
  let d := dom w in
  mkWorld (this w)
          (mkDom (modal d) v (messagesContainer d) (messageInput d)
                 (sendButton d) (inputFocused d) (toasts d) (console d))
          (env w).

Definition set_messagesContainer (v : option ContainerEl) (w : World) : World :=
  let d := dom w in
  mkWorld (this w)
          (mkDom (modal d) (chatTitle d) v (messageInput d)
                 (sendButton d) (inputFocused d) (toasts d) (console d))
          (env w).

Definition set_messageInput (v : option InputEl) (w : World) : World :=
  let d := dom w in
  mkWorld (this w)
          (mkDom (modal d) (chatTitle d) (messagesContainer d) v
                 (sendButton d) (inputFocused d) (toasts d) (console d))
          (env w).

Definition set_sendButton (v : option bool) (w : World) : World :=
  let d := dom w in
  mkWorld (this w)
          (mkDom (modal d) (chatTitle d) (messagesContainer d) (messageInput d)
                 v (inputFocused d) (toasts d) (console d))
          (env w).

Definition set_inputFocused (v : bool) (w : World) : World :=
  let d := dom w in
  mkWorld (this w)
          (mkDom (modal d) (chatTitle d) (messagesContainer d) (messageInput d)
                 (sendButton d) v (toasts d) (console d))
          (env w).

Definition set_toasts (v : list jsstring) (w : World) : World :=
  let d := dom w in
  mkWorld (this w)
          (mkDom (modal d) (chatTitle d) (messagesContainer d) (messageInput d)
                 (sendButton d) (inputFocused d) v (console d))
          (env w).

Definition set_console (v : list jsstring) (w : World) : World :=
  let d := dom w in
  mkWorld (this w)
          (mkDom (modal d) (chatTitle d) (messagesContainer d) (messageInput d)
                 (sendButton d) (inputFocused d) (toasts d) v)
          (env w).

Definition set_env (v : Browser) (w : World) : World :=
  mkWorld (this w) (dom w) v.

(** ** A state-and-exception monad for the synchronous code *)

(** A computation returns a value or throws; either way it leaves a world
    behind, since the assignments made before a throw stay made. *)
Inductive Res (A : Type) :=
| Ok (a : A) (w : World)
| Throw (w : World).
Arguments Ok {A} a w.
Arguments Throw {A} w.

Definition M (A : Type) : Type := World -> Res A.

Definition ret {A} (a : A) : M A := fun w => Ok a w.

Definition bind {A B} (m : M A) (k : A -> M B) : M B :=
  fun w => match m w with
           | Ok a w' => k a w'
           | Throw w' => Throw w'
           end.

Definition throw {A} : M A := fun w => Throw w.

(** [try { body } catch (error) { handler }] *)
Definition try_catch {A} (body handler : M A) : M A :=
  fun w => match body w with
           | Ok a w' => Ok a w'
           | Throw w' => handler w'
           end.

Definition gets {A} (f : World -> A) : M A := fun w => Ok (f w) w.
Definition modify (f : World -> World) : M unit := fun w => Ok tt (f w).

(** The world a computation leaves, and whether it threw. *)
Definition world_of {A} (r : Res A) : World :=
  match r with Ok _ w => w | Throw w => w end.

Definition threw {A} (r : Res A) : bool :=
  match r with Ok _ _ => false | Throw _ => true end.

(** The monad's operations under stdpp's notations [x ← m; k] and [m ;; k]. *)
#[global] Instance M_ret : MRet M := @ret.
#[global] Instance M_bind : MBind M := fun A B k m => bind m k.


(** ** Browser primitives *)

(** [setInterval(callback, delay)]: a fresh, non-zero handle. *)
Definition setInterval : M nat := fun w =>
  let e := env w in
  let h := S (lastHandle e) in
  Ok h (set_env (mkBrowser (intervals e ++ [h]) h (inflight e) (nextRequest e)
                           (network e) (clock e) (uncaught e)) w).

(** [clearInterval(h)] *)
Definition clearInterval (h : nat) : M unit :=
  modify (fun w =>
    let e := env w in
    set_env (mkBrowser (filter (fun x => negb (Nat.eqb x h)) (intervals e))
                       (lastHandle e) (inflight e) (nextRequest e)
                       (network e) (clock e) (uncaught e)) w).

(** [await fetch(...)]: the request leaves and the task is parked until the
    response arrives. *)
Definition fetch (r : Request) (t : Task) : M unit :=
  modify (fun w =>
    let e := env w in
    set_env (mkBrowser (intervals e) (lastHandle e)
                       (inflight e ++ [(nextRequest e, t)]) (S (nextRequest e))
                       (network e ++ [r]) (clock e) (uncaught e)) w).

Definition console_error (line : jsstring) : M unit :=
  modify (fun w => set_console (console (dom w) ++ [line]) w).

(** What a request comes back with.  The body of a successful response is
    not JSON, the JSON value [null], or a JSON value whose [messages]
    property is falsy or an array of messages.  [await fetch(...)] and
    [await response.json()] are one round trip: the response arrives with
    its body read. *)
Inductive Falsy := JsUndefined | JsNull | JsFalse | JsZero | JsEmptyString.

Inductive MessagesField :=
| FalsyField (v : Falsy)            (* [JsUndefined]: the key is missing *)
| MessageArray (l : list Message).

Inductive Body :=
| NotJson                           (* [response.json()] rejects *)
| JsonNull                          (* [data.messages] is a [TypeError] *)
| JsonValue (field : MessagesField).

Inductive Response :=
| NetworkError                      (* [fetch] rejects *)
| Http (ok : bool) (body : Body).

(** [data.messages || []] *)
Definition or_empty (field : MessagesField) : list Message :=
  match field with
  | MessageArray l => l
  | FalsyField _ => []
  end.

(** [response.ok] of a response that arrived. *)
Definition response_ok (r : Response) : bool :=
  match r with
  | Http ok _ => ok
  | NetworkError => false
  end.

(** ** Focus

    [inputFocused] says that the text input is the document's active
    element.  The browser gives it the focus on [focus()] only if the
    input is focusable, that is rendered and not disabled, and an element
    that stops being focusable loses the focus (the focus fixup of the HTML
    standard).  The modal is taken to be on screen exactly when its
    [style.display] is ["flex"], the value [open] writes; the widget itself
    writes no other value but ["none"]. *)

Fixpoint same_units (a b : jsstring) : bool :=
  match a, b with
  | [], [] => true
  | x :: a', y :: b' => (x =? y)%N && same_units a' b'
  | _, _ => false
  end.

Definition modal_shown (w : World) : bool :=
  match modal (dom w) with
  | Some display => same_units display (js "flex")
  | None => false
  end.

Definition focusable (w : World) : bool :=
  modal_shown w
  && match messageInput (dom w) with
     | Some el => negb (input_disabled el)
     | None => false
     end.

(** The effect of [focus()] on the input. *)
Definition give_focus (w : World) : World :=
  set_inputFocused (inputFocused (dom w) || focusable w) w.

(** Assignment of ["none"] to [this.modal.style.display]: what is inside
    the modal is no longer rendered, so the input cannot keep the focus. *)
Definition hide_modal (w : World) : World :=
  set_inputFocused false (set_modal (Some (js "none")) w).

(** Assignment to [this.messageInput.disabled]: a disabled input cannot
    keep the focus. *)
Definition assign_disabled (el : InputEl) (b : bool) (w : World) : World :=
  set_inputFocused (inputFocused (dom w) && negb b)
                   (set_messageInput (Some (mkInput (value el) b)) w).

(** ** The methods of [ChatSystem] *)

Section Widget.

Variable toLocaleDateString : Z -> jsstring.

(** [showError(message)]: a notice is appended to the document; the
    timeout that removes it is the event [ToastExpires]. *)
Definition showError (message : jsstring) : M unit :=
  modify (fun w => set_toasts (toasts (dom w) ++ [message]) w).

(** [stopPolling()] *)
Definition stopPolling : M unit :=
  p ← gets (fun w => pollingInterval (this w));
  match p with
  | Some (S _ as h) => clearInterval h ;; modify (set_pollingInterval None)
  | Some O | None => ret tt         (* a falsy handle *)
  end.

(** [startPolling()] *)
Definition startPolling : M unit :=
  stopPolling ;;
  h ← setInterval;
  modify (set_pollingInterval (Some h)).

(** [scrollToBottom()] *)
Definition scrollToBottom : M unit :=
  c ← gets (fun w => messagesContainer (dom w));
  match c with
  | Some el => modify (set_messagesContainer (Some (mkContainer (innerHTML el) true)))
  | None => ret tt
  end.

(** Assignment to [this.messagesContainer.innerHTML]. *)
Definition write_html (html : jsstring) : M unit :=
  modify (set_messagesContainer (Some (mkContainer html false))).

(** [renderMessages()] *)
Definition renderMessages : M unit :=
  c ← gets (fun w => messagesContainer (dom w));
  match c with
  | None => ret tt
  | Some _ =>
      msgs ← gets (fun w => messages (this w));
      match msgs with
      | [] => write_html empty_html
      | _ :: _ =>
          u ← gets (fun w => currentUser (this w));
          match u with
          | None => throw           (* [this.currentUser.id] on [null] *)
          | Some viewer =>
              now ← gets (fun w => clock (env w));
              write_html (render_html toLocaleDateString now viewer msgs) ;;
              scrollToBottom
          end
      end
  end.

(** [`${this.offerId}`] *)
Definition offer_param (o : option Z) : jsstring :=
  match o with
  | Some n => js (pretty n)
  | None => js "null"
  end.

Definition messages_url (w : World) : jsstring :=
  apiUrl (options (this w)) ++ js "/messages?offer_id=" ++ offer_param (offerId (this w)).

(** [loadMessages()] up to its [await fetch(...)]. *)
Definition loadMessages_request (caller : Caller) : M unit :=
  url ← gets messages_url;
  fetch (GET url) (AwaitMessages caller).

(** The [catch] block of [loadMessages]. *)
Definition loadMessages_catch : M unit :=
  console_error (js "Error loading messages:") ;;
  showError (js "Failed to load messages. Please try again.").

(** [loadMessages()] from the response on. *)
Definition loadMessages_response (r : Response) : M unit :=
  try_catch
    match r with
    | NetworkError => throw
    | Http ok body =>
        if negb ok then throw
        else match body with
             | NotJson | JsonNull => throw
             | JsonValue field =>
                 modify (set_messages (or_empty field)) ;;
                 renderMessages
             end
    end
    loadMessages_catch.

(** [this.messageInput.focus()] *)
Definition focus_input : M unit := modify give_focus.

(** [open(offerId, currentUser, chatTitle = 'Chat')] up to
    [await this.loadMessages()]. *)
Definition open (offer : Z) (user : option User) (title : option jsstring) : M unit :=
  modify (set_offerId (Some offer)) ;;
  modify (set_currentUser user) ;;
  t ← gets (fun w => chatTitle (dom w));
  match t with
  | Some _ => modify (set_chatTitle (Some (default (js "Chat") title)))
  | None => ret tt
  end ;;
  m ← gets (fun w => modal (dom w));
  match m with
  | None => throw                   (* [this.modal.style] on [null] *)
  | Some _ => modify (set_modal (Some (js "flex")))
  end ;;
  loadMessages_request FromOpen.

(** [open] after [await this.loadMessages()]. *)
Definition open_resume : M unit :=
  startPolling ;;
  i ← gets (fun w => messageInput (dom w));
  match i with
  | Some _ => focus_input
  | None => ret tt
  end.

(** [close()] *)
Definition close : M unit :=
  m ← gets (fun w => modal (dom w));
  match m with
  | None => throw
  | Some _ => modify hide_modal
  end ;;
  stopPolling ;;
  modify (set_offerId None) ;;
  i ← gets (fun w => messageInput (dom w));
  match i with
  | Some el => modify (set_messageInput (Some (mkInput [] (input_disabled el))))
  | None => ret tt
  end.

(** [destroy()] *)
Definition destroy : M unit := stopPolling ;; close.

(** Assignments to [this.messageInput.disabled] and
    [this.sendButton.disabled]. *)
Definition set_input_disabled (b : bool) : M unit :=
  i ← gets (fun w => messageInput (dom w));
  match i with
  | Some el => modify (assign_disabled el b)
  | None => throw
  end.

Definition set_button_disabled (b : bool) : M unit :=
  s ← gets (fun w => sendButton (dom w));
  match s with
  | Some _ => modify (set_sendButton (Some b))
  | None => throw
  end.

Definition too_long_notice (max : Z) : jsstring :=
  js "Message is too long. Maximum " ++ js (pretty max) ++ js " characters.".

(** [sendMessage()] up to its [await fetch(...)]. *)
Definition sendMessage : M unit :=
  i ← gets (fun w => messageInput (dom w));
  match i with
  | None => throw                   (* [this.messageInput.value] on [null] *)
  | Some el =>
      let messageText := trim (value el) in
      match messageText with
      | [] => ret tt
      | _ :: _ =>
          max ← gets (fun w => maxMessageLength (options (this w)));
          if max <? Z.of_nat (length messageText)
          then showError (too_long_notice max)
          else
            set_input_disabled true ;;
            set_button_disabled true ;;
            url ← gets (fun w => apiUrl (options (this w)) ++ js "/messages");
            offer ← gets (fun w => offerId (this w));
            fetch (POST url offer messageText) AwaitPosted
      end
  end.

(** The [finally] block of [sendMessage]. *)
Definition sendMessage_finally : M unit :=
  set_input_disabled false ;;
  set_button_disabled false ;;
  focus_input.

(** [sendMessage()] from the response to the POST on.  After a successful
    response the task is parked again, inside [loadMessages]; the result
    says so, and the [finally] block then runs when that returns. *)
Definition sendMessage_response (r : Response) : M unit :=
  parked ← try_catch
    (if response_ok r
     then
       i ← gets (fun w => messageInput (dom w));
       match i with
       | Some el => modify (set_messageInput (Some (mkInput [] (input_disabled el))))
       | None => throw
       end ;;
       loadMessages_request FromSend ;;
       ret true
     else throw)
    (console_error (js "Error sending message:") ;;
     showError (js "Failed to send message. Please try again.") ;;
     ret false);
  if (parked : bool) then ret tt else sendMessage_finally.

(** What runs once [loadMessages] has returned to its caller. *)
Definition after_loadMessages (caller : Caller) : M unit :=
  match caller with
  | FromTick => ret tt
  | FromOpen => open_resume
  | FromSend => sendMessage_finally
  end.

(** A parked task resumed with the response to its request. *)
Definition resume (t : Task) (r : Response) : M unit :=
  match t with
  | AwaitMessages caller => loadMessages_response r ;; after_loadMessages caller
  | AwaitPosted => sendMessage_response r
  end.

End Widget.

(** ** The event loop *)

(** What can happen to the widget: a call of one of its methods (by a
    listener or by the host page), the user typing, an interval timer
    firing, a response arriving, time passing, a notice timing out. *)
Inductive Event :=
| CallOpen (offer : Z) (user : option User) (title : option jsstring)
| CallClose
| CallDestroy
| CallSendMessage
| CallStartPolling
| CallStopPolling
| UserTypes (text : jsstring)
| Tick (h : nat)
| Arrives (request : nat) (r : Response)
| TimePasses (t : Z)
| ToastExpires.

(** An exception that escapes a listener, a timer callback or an [async]
    method is reported by the browser; the world stays as the throw left it. *)
Definition settle (r : Res unit) : World :=
  match r with
  | Ok _ w => w
  | Throw w =>
      let e := env w in
      set_env (mkBrowser (intervals e) (lastHandle e) (inflight e) (nextRequest e)
                         (network e) (clock e) (S (uncaught e))) w
  end.

(** The task parked on a request, and the requests that stay in flight. *)
Fixpoint take_task (request : nat) (l : list (nat * Task)) : option (Task * list (nat * Task)) :=
  match l with
  | [] => None
  | (n, t) :: rest =>
      if Nat.eqb n request then Some (t, rest)
      else match take_task request rest with
           | Some (t', rest') => Some (t', (n, t) :: rest')
           | None => None
           end
  end.

Definition set_inflight (l : list (nat * Task)) (w : World) : World :=
  let e := env w in
  set_env (mkBrowser (intervals e) (lastHandle e) l (nextRequest e)
                     (network e) (clock e) (uncaught e)) w.

Definition set_clock (t : Z) (w : World) : World :=
  let e := env w in
  set_env (mkBrowser (intervals e) (lastHandle e) (inflight e) (nextRequest e)
                     (network e) t (uncaught e)) w.

Definition interval_active (h : nat) (w : World) : bool :=
  existsb (Nat.eqb h) (intervals (env w)).

Section EventLoop.

Variable toLocaleDateString : Z -> jsstring.

(** One turn of the event loop; [None] when the event cannot happen in this
    world (a timer that is not active, a request that is not in flight, a
    disabled or missing input, a clock running backwards, no notice). *)
Definition step (ev : Event) (w : World) : option World :=
  match ev with
  | CallOpen offer user title => Some (settle (open offer user title w))
  | CallClose => Some (settle (close w))
  | CallDestroy => Some (settle (destroy w))
  | CallSendMessage => Some (settle (sendMessage w))
  | CallStartPolling => Some (settle (startPolling w))
  | CallStopPolling => Some (settle (stopPolling w))
  | UserTypes text =>
      match messageInput (dom w) with
      | Some el =>
          if input_disabled el then None
          else Some (set_messageInput (Some (mkInput text false)) w)
      | None => None
      end
  | Tick h =>
      if interval_active h w
      then Some (settle (loadMessages_request FromTick w))
      else None
  | Arrives request r =>
      match take_task request (inflight (env w)) with
      | Some (t, rest) => Some (settle (resume toLocaleDateString t r (set_inflight rest w)))
      | None => None
      end
  | TimePasses t =>
      if clock (env w) <=? t then Some (set_clock t w) else None
  | ToastExpires =>
      match toasts (dom w) with
      | [] => None
      | _ :: rest => Some (set_toasts rest w)
      end
  end.

(** A sequence of events, from left to right. *)
Fixpoint run (evs : list Event) (w : World) : option World :=
  match evs with
  | [] => Some w
  | ev :: rest =>
      match step ev w with
      | Some w' => run rest w'
      | None => None
      end
  end.

End EventLoop.

(** The constructor: [new ChatSystem(modalId, options)] in a document whose
    elements are [d], at time [t].  [initializeElements] gives up when the
    modal is not found. *)
Definition initializeElements (d : Dom) : Dom :=
  match modal d with
  | Some _ => d
  | None =>                         (* logged; no element is looked up *)
      mkDom None None None None None (inputFocused d) (toasts d)
            (console d ++ [js "Chat modal not found"])
  end.

Definition construct (d : Dom) (o : UserOptions) (t : Z) : World :=
  mkWorld (mkFields None None [] None (build_options o))
          (initializeElements d)
          (mkBrowser [] 0 [] 0 [] t 0).

(** The worlds a widget can be in. *)
Inductive reachable (toLocaleDateString : Z -> jsstring) : World -> Prop :=
| reachable_construct d o t : reachable toLocaleDateString (construct d o t)
| reachable_step ev w w' :
    reachable toLocaleDateString w ->
    step toLocaleDateString ev w = Some w' ->
    reachable toLocaleDateString w'.

(** A document that has every element the widget looks for. *)
Definition page (draft : jsstring) : Dom :=
  mkDom (Some (js "none")) (Some []) (Some (mkContainer [] false))
        (Some (mkInput draft false)) (Some false) false [] [].

(** A locale for the examples: every date prints as its time value. *)
Definition plain_date (t : Z) : jsstring := js (pretty t).

(** ** How the document reads the markup

    Assigning to [innerHTML] hands the string to the HTML parser.  The part
    of its tokenizer that decides where an element starts is modelled here:
    in ordinary text a [<] followed by a letter opens a start tag, whose name
    runs to the next space, [/] or [>]; the tag is complete at the next [>]
    outside a quoted attribute value; [</], [<!] and [<?] open something
    that is skipped up to its [>]. *)

Inductive Mode :=
| Data                              (* ordinary text *)
| TagOpen                           (* just after [<] *)
| TagName (name : jsstring)         (* reading the name of a start tag *)
| InTag (name : option jsstring) (quote : option N).

Definition is_alpha (c : N) : bool :=
  ((65 <=? c) && (c <=? 90) || (97 <=? c) && (c <=? 122))%N.

Definition is_space (c : N) : bool :=
  ((c =? 9) || (c =? 10) || (c =? 12) || (c =? 13) || (c =? 32))%N.

Definition started (name : option jsstring) : list jsstring :=
  match name with
  | Some n => [n]
  | None => []
  end.

(** One code unit: the next mode and the elements whose start tag it ends. *)
Definition feed (m : Mode) (c : N) : Mode * list jsstring :=
  match m with
  | Data => if (c =? 60)%N then (TagOpen, []) else (Data, [])
  | TagOpen =>
      if is_alpha c then (TagName [c], [])
      else if ((c =? 47) || (c =? 33) || (c =? 63))%N then (InTag None None, [])
      else if (c =? 60)%N then (TagOpen, [])
      else (Data, [])
  | TagName name =>
      if (c =? 62)%N then (Data, [name])
      else if is_space c || (c =? 47)%N then (InTag (Some name) None, [])
      else (TagName (name ++ [c]), [])
  | InTag name None =>
      if (c =? 62)%N then (Data, started name)
      else if ((c =? 34) || (c =? 39))%N then (InTag name (Some c), [])
      else (InTag name None, [])
  | InTag name (Some q) =>
      if (c =? q)%N then (InTag name None, []) else (InTag name (Some q), [])
  end.

Fixpoint scan (m : Mode) (html : jsstring) : Mode * list jsstring :=
  match html with
  | [] => (m, [])
  | c :: rest =>
      let (m1, out1) := feed m c in
      let (m2, out2) := scan m1 rest in
      (m2, out1 ++ out2)
  end.

(** The elements the parser creates for a piece of markup, by name, in
    document order. *)
Definition elements (html : jsstring) : list jsstring := snd (scan Data html).

(** The elements of the message template itself. *)
Definition template_elements : list jsstring :=
  [js "div"; js "div"; js "span"; js "span"; js "div"].

(** A string without [<] cannot open a tag. *)
Definition markup_free (s : jsstring) : Prop := Forall (fun c => c <> 60%N) s.

(** No code unit of the string is [<] (the executable form of [markup_free]). *)
Definition no_lt (s : jsstring) : bool := forallb (fun c => negb (c =? 60)%N) s.

(** ** Invariant of the poll timer

    The handle the widget holds is the one active interval timer, and there
    is none when it holds no handle. *)
Definition timer_inv (w : World) : Prop :=
  match pollingInterval (this w) with
  | Some h => h <> O /\ intervals (env w) = [h]
  | None => intervals (env w) = []
  end.

(** The task, if any, that the arrival of a response resumes. *)
Definition resumed_task (ev : Event) (w : World) : option Task :=
  match ev with
  | Arrives request _ =>
      match take_task request (inflight (env w)) with
      | Some (t, _) => Some t
      | None => None
      end
  | _ => None
  end.



(** A response that makes a request fail: the transport failed or the
    status is not a success. *)
Definition failed (r : Response) : Prop := response_ok r = false.

(** Worlds and messages used in the examples. *)
Definition alice : User := mkUser 7.

Definition fresh_widget : World := construct (page []) no_options 0.

Definition old_message : Message :=
  mkMessage 7 (js "<b>Al</b>") (js "<script>x</script>") 0.

Definition img_message : Message :=
  mkMessage 7 (js "Al") (js "<img src=x onerror=alert(1)>") 0.

Definition plain_message : Message :=
  mkMessage 8 (js "<i>Bob</i>") (js "hello") 0.

Definition fixed_date (t : Z) : jsstring := js "1/1/2025".

Definition ok_with (l : list Message) : Response :=
  Http true (JsonValue (MessageArray l)).

(** The world the example widget is in after a sequence of events. *)
Definition after_events (evs : list Event) : World :=
  default fresh_widget (run plain_date evs fresh_widget).

(** Conversation 1 is open with one message shown, its timer has ticked and
    the refresh that tick started (request 1) is in flight. *)
Definition polling_world : World :=
  after_events [CallOpen 1 (Some alice) None;
                Arrives 0 (ok_with [plain_message]);
                Tick 1].

(** The user has typed a draft into the open conversation. *)
Definition drafting_world : World :=
  after_events [CallOpen 1 (Some alice) None;
                Arrives 0 (ok_with [plain_message]);
                UserTypes (js "  hi there ")].

(** The draft has been submitted and its POST (request 1) is in flight. *)
Definition sending_world : World :=
  after_events [CallOpen 1 (Some alice) None;
                Arrives 0 (ok_with [plain_message]);
                UserTypes (js "  hi there ");
                CallSendMessage].


(** Conversation 1 is open and two ticks have a refresh in flight each
    (requests 1 and 2). *)
Definition two_refreshes_world : World :=
  after_events [CallOpen 1 (Some alice) None;
                Arrives 0 (ok_with [plain_message]);
                Tick 1;
                Tick 1].

(** A page on which the modal was not found. *)
Definition bare_widget : World :=
  construct (mkDom None None None None None false [] []) no_options 0.

(** * MapDisplay: the marker bookkeeping of [map-display.js]

    The class keeps a [Map] from volunteer ids to Leaflet markers and an
    array of volunteer objects, and drives a Leaflet map.  Of Leaflet only
    what the class relies on is modelled: a map holds the layers added to it,
    [addTo] appends a layer (and fails on [null]), [removeLayer] takes a
    layer out by identity, [setView] and [fitBounds] record the view asked
    for.  Numbers are only stored and handed to Leaflet.  Volunteer objects
    are values: the caller is assumed not to mutate an object after handing
    it over. *)

Module MapDisplay.

Abbreviation number := QArith_base.Q.

(** A volunteer object; a field is [None] when the property is undefined. *)
Record Volunteer := mkVolunteer {
  id : option Z;
  name : option jsstring;
  status : option jsstring;
  role : option jsstring;
  phone : option jsstring;
  email : option jsstring;
  latitude : option number;
  longitude : option number
}.

(** A Leaflet marker: its identity, its position and the popup bound to it. *)
Record Marker := mkMarker {
  ref : nat;
  latlng : number * number;
  popup : jsstring
}.

Inductive View :=
| SetView (center : number * number) (zoom : number)
| FitBounds (group : list Marker).  (* the bounds of the group, padded by 0.1 *)

Record TileLayer := mkTileLayer {
  urlTemplate : jsstring;
  tile_attribution : jsstring;
  maxZoom : number
}.

(** The Leaflet map object. *)
Record LeafletMap := mkLeafletMap {
  view : View;
  tiles : option TileLayer;
  layers : list Marker
}.

Record Options := mkOptions {
  center : number * number;
  zoom : number;
  tileLayer : jsstring;
  attribution : jsstring
}.

Record UserOptions := mkUserOptions {
  opt_center : option (number * number);
  opt_zoom : option number;
  opt_tileLayer : option jsstring;
  opt_attribution : option jsstring
}.

Inductive LogLine :=
| ContainerNotFound (containerId : jsstring)
| InvalidVolunteer (v : Volunteer).

(** The fields of a [MapDisplay] object, the stamp Leaflet gives the next
    object it creates, and the console. *)
Record State := mkState {
  containerId : jsstring;
  leafletMap : option LeafletMap;   (* [this.map] *)
  markers : list (Z * Marker);      (* [this.markers], a [Map] in insertion order *)
  volunteers : list Volunteer;
  options : Options;
  stamp : nat;
  console : list LogLine
}.

(** A method returns or throws, and leaves a state either way. *)
Inductive Outcome :=
| Done (s : State)
| Raised (s : State).

Definition state_of (o : Outcome) : State :=
  match o with Done s => s | Raised s => s end.

(** ** The [Map] of markers *)

Definition Map_get {V} (k : Z) (m : list (Z * V)) : option V :=
  match find (fun p => fst p =? k) m with
  | Some p => Some (snd p)
  | None => None
  end.

Definition Map_has {V} (k : Z) (m : list (Z * V)) : bool :=
  existsb (fun p => fst p =? k) m.

(** [set] replaces the value of a key in place and appends a new key. *)
Fixpoint Map_set {V} (k : Z) (v : V) (m : list (Z * V)) : list (Z * V) :=
  match m with
  | [] => [(k, v)]
  | (k', v') :: rest =>
      if k' =? k then (k, v) :: rest else (k', v') :: Map_set k v rest
  end.

Definition Map_delete {V} (k : Z) (m : list (Z * V)) : list (Z * V) :=
  List.filter (fun p => negb (fst p =? k)) m.

(** ** Field updates *)

Definition set_leafletMap (m : option LeafletMap) (s : State) : State :=
  mkState (containerId s) m (markers s) (volunteers s) (options s) (stamp s) (console s).

Definition set_markers (m : list (Z * Marker)) (s : State) : State :=
  mkState (containerId s) (leafletMap s) m (volunteers s) (options s) (stamp s) (console s).

Definition set_volunteers (l : list Volunteer) (s : State) : State :=
  mkState (containerId s) (leafletMap s) (markers s) l (options s) (stamp s) (console s).

Definition set_stamp (n : nat) (s : State) : State :=
  mkState (containerId s) (leafletMap s) (markers s) (volunteers s) (options s) n (console s).

Definition log (line : LogLine) (s : State) : State :=
  mkState (containerId s) (leafletMap s) (markers s) (volunteers s) (options s) (stamp s)
          (console s ++ [line]).

(** ** Leaflet *)

(** [map.removeLayer(marker)] *)
Definition removeLayer (mk : Marker) (m : LeafletMap) : LeafletMap :=
  mkLeafletMap (view m) (tiles m)
               (List.filter (fun x => negb (Nat.eqb (ref x) (ref mk))) (layers m)).

(** [marker.addTo(map)] *)
Definition addLayer (mk : Marker) (m : LeafletMap) : LeafletMap :=
  mkLeafletMap (view m) (tiles m) (layers m ++ [mk]).

Definition with_view (v : View) (m : LeafletMap) : LeafletMap :=
  mkLeafletMap v (tiles m) (layers m).

(** ** The methods *)

Definition truthy (o : option jsstring) : bool :=
  match o with
  | Some (_ :: _) => true
  | _ => false
  end.

(** [field || dflt] *)
Definition or_else (o : option jsstring) (dflt : jsstring) : jsstring :=
  match o with
  | Some (c :: rest) => c :: rest
  | _ => dflt
  end.

Section Methods.

(** [String.prototype.toLowerCase], which follows the Unicode case mapping. *)
Variable toLowerCase : jsstring -> jsstring.

(** [generatePopupContent(volunteer)] *)
Definition generatePopupContent (v : Volunteer) : jsstring :=
  let name_ := or_else (name v) (js "Unknown Volunteer") in
  let status_ := or_else (status v) (js "Active") in
  let role_ := or_else (role v) (js "Volunteer") in
  nl 6 ++ js "<div class=" ++ [dquote] ++ js "volunteer-popup" ++ [dquote] ++ js ">"
  ++ nl 8 ++ js "<h4>" ++ name_ ++ js "</h4>"
  ++ nl 8 ++ js "<p><strong>Role:</strong> " ++ role_ ++ js "</p>"
  ++ nl 8 ++ js "<p><strong>Status:</strong> <span class=" ++ [dquote] ++ js "status "
  ++ toLowerCase status_ ++ [dquote] ++ js ">" ++ status_ ++ js "</span></p>"
  ++ nl 8
  ++ (if truthy (phone v)
      then js "<p><strong>Phone:</strong> " ++ default [] (phone v) ++ js "</p>"
      else [])
  ++ nl 8
  ++ (if truthy (email v)
      then js "<p><strong>Email:</strong> " ++ default [] (email v) ++ js "</p>"
      else [])
  ++ nl 6 ++ js "</div>"
  ++ nl 4.

(** The guard of [addVolunteerMarker]: a truthy id and both coordinates
    defined. *)
Definition checked (v : Volunteer) : option (Z * number * number) :=
  match id v, latitude v, longitude v with
  | Some z, Some la, Some lo => if z =? 0 then None else Some (z, la, lo)
  | _, _, _ => None
  end.

Definition has_id (z : Z) (v : Volunteer) : bool :=
  match id v with
  | Some z' => z' =? z
  | None => false
  end.

(** [addVolunteerMarker(volunteer)] *)
Definition addVolunteerMarker (v : Volunteer) (s : State) : Outcome :=
  match checked v with
  | None => Done (log (InvalidVolunteer v) s)
  | Some (z, la, lo) =>
      let removed :=
        match Map_get z (markers s) with
        | Some old =>
            match leafletMap s with
            | Some m => Some (set_leafletMap (Some (removeLayer old m)) s)
            | None => None            (* [this.map.removeLayer] on [null] *)
            end
        | None => Some s
        end in
      match removed with
      | None => Raised s
      | Some s1 =>
          match leafletMap s1 with
          | None => Raised s1         (* [addTo(null)] *)
          | Some m =>
              let marker := mkMarker (stamp s1) (la, lo) (generatePopupContent v) in
              let s2 := set_stamp (S (stamp s1))
                          (set_leafletMap (Some (addLayer marker m)) s1) in
              let s3 := set_markers (Map_set z marker (markers s2)) s2 in
              if existsb (has_id z) (volunteers s3)
              then Done s3
              else Done (set_volunteers (volunteers s3 ++ [v]) s3)
          end
      end
  end.

(** [fitMapToMarkers()] *)
Definition fitMapToMarkers (s : State) : Outcome :=
  match markers s with
  | [] => Done s
  | _ :: _ =>
      match leafletMap s with
      | Some m => Done (set_leafletMap (Some (with_view (FitBounds (map snd (markers s))) m)) s)
      | None => Raised s
      end
  end.

(** [volunteers.forEach(volunteer => this.addVolunteerMarker(volunteer))] *)
Fixpoint addEach (vs : list Volunteer) (s : State) : Outcome :=
  match vs with
  | [] => Done s
  | v :: rest =>
      match addVolunteerMarker v s with
      | Done s' => addEach rest s'
      | Raised s' => Raised s'
      end
  end.

(** [addVolunteers(volunteers)] *)
Definition addVolunteers (vs : list Volunteer) (s : State) : Outcome :=
  match addEach vs s with
  | Done s' => fitMapToMarkers s'
  | Raised s' => Raised s'
  end.

(** [removeVolunteer(volunteerId)] *)
Definition removeVolunteer (z : Z) (s : State) : Outcome :=
  match Map_get z (markers s) with
  | Some old =>
      match leafletMap s with
      | Some m =>
          Done (set_volunteers (List.filter (fun v => negb (has_id z v)) (volunteers s))
                  (set_markers (Map_delete z (markers s))
                     (set_leafletMap (Some (removeLayer old m)) s)))
      | None => Raised s
      end
  | None => Done s
  end.

(** [clearMap()] *)
Definition clearMap (s : State) : Outcome :=
  match markers s with
  | [] => Done (set_volunteers [] s)
  | _ :: _ =>
      match leafletMap s with
      | Some m =>
          Done (set_volunteers []
                  (set_markers []
                     (set_leafletMap
                        (Some (fold_left (fun acc p => removeLayer (snd p) acc) (markers s) m))
                        s)))
      | None => Raised s
      end
  end.

(** The first volunteer with the id gets the new coordinates. *)
Fixpoint relocate (z : Z) (la lo : number) (l : list Volunteer) : list Volunteer :=
  match l with
  | [] => []
  | v :: rest =>
      if has_id z v
      then mkVolunteer (id v) (name v) (status v) (role v) (phone v) (email v)
                       (Some la) (Some lo) :: rest
      else v :: relocate z la lo rest
  end.

(** [updateVolunteerLocation(volunteerId, latitude, longitude)] *)
Definition updateVolunteerLocation (z : Z) (la lo : number) (s : State) : Outcome :=
  match find (has_id z) (volunteers s) with
  | Some v =>
      addVolunteerMarker
        (mkVolunteer (id v) (name v) (status v) (role v) (phone v) (email v)
                     (Some la) (Some lo))
        (set_volunteers (relocate z la lo (volunteers s)) s)
  | None => Done s
  end.

(** [getVolunteers()] and [getMarkerCount()] *)
Definition getVolunteers (s : State) : list Volunteer := volunteers s.
Definition getMarkerCount (s : State) : nat := length (markers s).

(** [setView(center, zoom = 13)] *)
Definition setView (c : number * number) (z : option number) (s : State) : State :=
  match leafletMap s with
  | Some m =>
      set_leafletMap (Some (with_view (SetView c (default (QArith_base.Qmake 13 1) z)) m)) s
  | None => s
  end.

(** [destroy()] *)
Definition destroy (s : State) : State :=
  match leafletMap s with
  | Some _ => set_volunteers [] (set_markers [] (set_leafletMap None s))
  | None => s
  end.

(** What the page can call on the object. *)
Inductive Call :=
| CallAddVolunteerMarker (v : Volunteer)
| CallAddVolunteers (vs : list Volunteer)
| CallFitMapToMarkers
| CallRemoveVolunteer (z : Z)
| CallClearMap
| CallUpdateVolunteerLocation (z : Z) (la lo : number)
| CallSetView (c : number * number) (z : option number)
| CallDestroy.

Definition call (c : Call) (s : State) : Outcome :=
  match c with
  | CallAddVolunteerMarker v => addVolunteerMarker v s
  | CallAddVolunteers vs => addVolunteers vs s
  | CallFitMapToMarkers => fitMapToMarkers s
  | CallRemoveVolunteer z => removeVolunteer z s
  | CallClearMap => clearMap s
  | CallUpdateVolunteerLocation z la lo => updateVolunteerLocation z la lo s
  | CallSetView c z => Done (setView c z s)
  | CallDestroy => Done (destroy s)
  end.

End Methods.

(** [this.options]: the defaults with the given options spread over them. *)
Definition build_options (o : UserOptions) : Options :=
  mkOptions
    (default (QArith_base.Qmake 51505 1000, QArith_base.Qmake (-9) 100) (opt_center o))
    (default (QArith_base.Qmake 13 1) (opt_zoom o))
    (default (js "https://{s}.tile.openstreetmap.org/{z}/{x}/{y}.png") (opt_tileLayer o))
    (default (js "&copy; <a href=" ++ [dquote] ++ js "https://www.openstreetmap.org/copyright"
              ++ [dquote] ++ js ">OpenStreetMap</a> contributors")
             (opt_attribution o)).

(** The constructor with [initializeMap]; [found] says whether the document
    has an element with the container's id. *)
Definition construct (container : jsstring) (found : bool) (o : UserOptions) : State :=
  let opts := build_options o in
  if found
  then mkState container
               (Some (mkLeafletMap (SetView (center opts) (zoom opts))
                        (Some (mkTileLayer (tileLayer opts) (attribution opts)
                                 (QArith_base.Qmake 19 1)))
                        []))
               [] [] opts 0 []
  else mkState container None [] [] opts 0 [ContainerNotFound container].

(** The states a [MapDisplay] object can be in. *)
Inductive reachable (toLowerCase : jsstring -> jsstring) : State -> Prop :=
| reachable_construct container found o :
    reachable toLowerCase (construct container found o)
| reachable_call c s :
    reachable toLowerCase s ->
    reachable toLowerCase (state_of (call toLowerCase c s)).

(** The id a stored volunteer is filed under. *)
Definition key_of (p : Z * Marker) : option Z := Some (fst p).

(** The bookkeeping invariant: the keys of the marker [Map] are, in order,
    the ids of the volunteers array; no key is repeated or zero; the layers
    on the Leaflet map are the markers of the [Map], each once; and without
    a Leaflet map there is no marker. *)
Definition consistent (s : State) : Prop :=
  map key_of (markers s) = map id (volunteers s)
  /\ NoDup (map fst (markers s))
  /\ Forall (fun p => fst p <> 0) (markers s)
  /\ match leafletMap s with
     | Some m =>
         map snd (markers s) ≡ₚ layers m
         /\ NoDup (map ref (layers m))
         /\ Forall (fun mk => (ref mk < stamp s)%nat) (layers m)
     | None => markers s = []
     end.

(** Example volunteers. *)
Definition ana : Volunteer :=
  mkVolunteer (Some 1) (Some (js "Ana")) None None None None
              (Some (QArith_base.Qmake 10 1)) (Some (QArith_base.Qmake 20 1)).

Definition ana_moved : Volunteer :=
  mkVolunteer (Some 1) (Some (js "Ana B.")) None None None None
              (Some (QArith_base.Qmake 11 1)) (Some (QArith_base.Qmake 21 1)).

Definition ben : Volunteer :=
  mkVolunteer (Some 2) (Some (js "Ben")) None None (Some (js "555")) None
              (Some (QArith_base.Qmake 30 1)) (Some (QArith_base.Qmake 40 1)).

Definition nameless : Volunteer :=
  mkVolunteer None None None None None None
              (Some (QArith_base.Qmake 30 1)) (Some (QArith_base.Qmake 40 1)).

Definition ascii_lower (s : jsstring) : jsstring :=
  map (fun c => if ((65 <=? c) && (c <=? 90))%N then (c + 32)%N else c) s.

Definition empty_map : State := construct (js "map") true (mkUserOptions None None None None).

Definition no_map : State := construct (js "map") false (mkUserOptions None None None None).

(** Ana and Ben are on the map. *)
Definition two_markers : State :=
  state_of (call ascii_lower (CallAddVolunteers [ana; ben]) empty_map).

End MapDisplay.

(** Modal, text input and send button were all found by the constructor. *)
Definition controls_present (w : World) : Prop :=
  is_Some (modal (dom w))
  /\ is_Some (messageInput (dom w))
  /\ is_Some (sendButton (dom w)).

(** The request is one the widget's configuration allows: the message list
    of some conversation, or a new message, under the base URL. *)
Definition to_endpoint (base : jsstring) (r : Request) : Prop :=
  match r with
  | GET url => exists offer, url = base ++ js "/messages?offer_id=" ++ offer_param offer
  | POST url _ text => url = base ++ js "/messages" /\ text <> []
  end.

(** First and last code unit of the string are not whitespace. *)
Definition trimmed (s : jsstring) : Prop :=
  (forall c rest, s = c :: rest -> is_ws c = false)
  /\ (forall c front, s = front ++ [c] -> is_ws c = false).

(** None of the units [escapeHtml] rewrites occurs in the string. *)
Definition plain (s : jsstring) : Prop :=
  Forall (fun c => c <> 38%N /\ c <> 160%N /\ c <> 60%N /\ c <> 62%N) s.

(** The handle held and the active timers are the same in both worlds. *)
Definition same_timers (w w' : World) : Prop :=
  pollingInterval (this w') = pollingInterval (this w)
  /\ intervals (env w') = intervals (env w).

(** ** Running the methods *)

(** Literals and renderings are kept folded while a method is run. *)
Arguments js : simpl never.
Arguments trim : simpl never.
Arguments render_html : simpl never.
Arguments empty_html : simpl never.
Arguments too_long_notice : simpl never.
Arguments offer_param : simpl never.

(** Splits a world into its fields, so that the methods compute on it. *)
Ltac open_world w :=
  let oid := fresh "offer0" in
  let usr := fresh "user0" in
  let msgs := fresh "msgs0" in
  let poll := fresh "poll0" in
  let opts := fresh "opts0" in
  let d := fresh "doc0" in
  let e := fresh "env0" in
  destruct w as [[oid usr msgs poll opts] d e];
  destruct d; destruct e; cbn in *.

(** The same without simplifying, for goals that mention URLs. *)
Ltac split_world w :=
  let t := fresh "fields0" in
  let d := fresh "doc0" in
  let e := fresh "env0" in
  destruct w as [t d e]; destruct t; destruct d; destruct e.

(** Unfolds the methods, the monad and the field updates, and follows the
    branches that remain. *)
Ltac exec :=
  cbv [mbind mret M_bind M_ret bind ret throw try_catch gets modify world_of
       threw settle
       set_offerId set_currentUser set_messages set_pollingInterval set_modal
       set_chatTitle set_messagesContainer set_messageInput set_sendButton
       set_inputFocused set_toasts set_console set_env set_inflight set_clock
       this dom env offerId currentUser messages pollingInterval options
       modal chatTitle messagesContainer messageInput sendButton inputFocused
       toasts console intervals lastHandle inflight nextRequest network clock
       uncaught value input_disabled innerHTML scrolledToBottom
       setInterval clearInterval fetch console_error showError
       stopPolling startPolling scrollToBottom write_html renderMessages
       messages_url loadMessages_request loadMessages_catch
       loadMessages_response focus_input open open_resume close destroy
       set_input_disabled set_button_disabled sendMessage sendMessage_finally
       sendMessage_response after_loadMessages resume
       or_empty response_ok ok_with interval_active same_timers timer_inv
       give_focus hide_modal assign_disabled] in *.

Ltac run_method :=
  exec; repeat (case_match; simplify_eq; exec); try (split; reflexivity); auto.

(** Follows the branches of a method that depend on a field, on the trimmed
    draft or on a comparison, one variable at a time. *)
Ltac branch :=
  repeat (exec; cbv beta iota delta [negb];
          match goal with
          | |- context [match ?x with _ => _ end] => is_var x; destruct x
          | |- context [trim ?v] => destruct (trim v) eqn:?
          | |- context [Z.ltb ?a ?b] => destruct (Z.ltb a b) eqn:?
          end);
  exec; cbv beta iota delta [negb].

(** * Properties *)

(** ** Relative time labels *)

Section TimeLabels.

Variable toLocaleDateString : Z -> jsstring.

Lemma minutes_to_hours (d : Z) : d / 60000 / 60 = d / 3600000.
Proof. rewrite Z.div_div by lia. reflexivity. Qed.

Lemma formatTime_just_now (now sentAt : Z) :
  now - sentAt < 60000 ->
  formatTime toLocaleDateString now sentAt = js "Just now".
Proof.
  intros Hlt. unfold formatTime. cbv zeta.
  assert (Hq : (now - sentAt) / 60000 < 1)
    by (apply Z.div_lt_upper_bound; lia).
  apply Z.ltb_lt in Hq. rewrite Hq. reflexivity.
Qed.

Lemma formatTime_minutes (now sentAt : Z) :
  60000 <= now - sentAt < 3600000 ->
  formatTime toLocaleDateString now sentAt
  = js (pretty ((now - sentAt) / 60000)) ++ js "m ago".
Proof.
  intros [Hlo Hhi]. unfold formatTime. cbv zeta.
  assert (Hq1 : 1 <= (now - sentAt) / 60000)
    by (apply Z.div_le_lower_bound; lia).
  assert (Hq2 : (now - sentAt) / 60000 < 60)
    by (apply Z.div_lt_upper_bound; lia).
  apply Z.ltb_ge in Hq1. apply Z.ltb_lt in Hq2.
  rewrite Hq1, Hq2. reflexivity.
Qed.

Lemma formatTime_hours (now sentAt : Z) :
  3600000 <= now - sentAt < 86400000 ->
  formatTime toLocaleDateString now sentAt
  = js (pretty ((now - sentAt) / 3600000)) ++ js "h ago".
Proof.
  intros [Hlo Hhi]. unfold formatTime. cbv zeta.
  assert (Hq1 : 60 <= (now - sentAt) / 60000)
    by (apply Z.div_le_lower_bound; lia).
  assert (Hm1 : ((now - sentAt) / 60000 <? 1) = false)
    by (apply Z.ltb_ge; lia).
  assert (Hm2 : ((now - sentAt) / 60000 <? 60) = false)
    by (apply Z.ltb_ge; lia).
  rewrite Hm1, Hm2, minutes_to_hours.
  assert (Hh : (now - sentAt) / 3600000 < 24)
    by (apply Z.div_lt_upper_bound; lia).
  apply Z.ltb_lt in Hh. rewrite Hh. reflexivity.
Qed.

Lemma formatTime_date (now sentAt : Z) :
  86400000 <= now - sentAt ->
  formatTime toLocaleDateString now sentAt = toLocaleDateString sentAt.
Proof.
  intros Hlo. unfold formatTime. cbv zeta.
  assert (Hh : 24 <= (now - sentAt) / 3600000)
    by (apply Z.div_le_lower_bound; lia).
  assert (Hq : 60 <= (now - sentAt) / 60000)
    by (apply Z.div_le_lower_bound; lia).
  assert (Hm1 : ((now - sentAt) / 60000 <? 1) = false)
    by (apply Z.ltb_ge; lia).
  assert (Hm2 : ((now - sentAt) / 60000 <? 60) = false)
    by (apply Z.ltb_ge; lia).
  rewrite Hm1, Hm2, minutes_to_hours.
  apply Z.ltb_ge in Hh. rewrite Hh. reflexivity.
Qed.

(** C9.  For a timestamp [sentAt] that is not after [now], the label is
    "Just now" under one minute, the whole minutes elapsed followed by
    "m ago" under an hour, the whole hours elapsed followed by "h ago"
    under a day, and the locale's date otherwise; the counts are the floors
    of the elapsed minutes and hours. *)
Theorem formatTime_relative_label (now sentAt : Z) :
  sentAt <= now ->
  let elapsed := now - sentAt in
  let minutes := elapsed / 60000 in
  let hours := elapsed / 3600000 in
  (60000 * minutes <= elapsed < 60000 * (minutes + 1))
  /\ (3600000 * hours <= elapsed < 3600000 * (hours + 1))
  /\ (elapsed < 60000 ->
      formatTime toLocaleDateString now sentAt = js "Just now")
  /\ (60000 <= elapsed < 3600000 ->
      formatTime toLocaleDateString now sentAt = js (pretty minutes) ++ js "m ago")
  /\ (3600000 <= elapsed < 86400000 ->
      formatTime toLocaleDateString now sentAt = js (pretty hours) ++ js "h ago")
  /\ (86400000 <= elapsed ->
      formatTime toLocaleDateString now sentAt = toLocaleDateString sentAt).
Proof.
  intros _ elapsed minutes hours. subst elapsed minutes hours.
  repeat split.
  - apply Z.mul_div_le; lia.
  - pose proof (Z.mul_succ_div_gt (now - sentAt) 60000). lia.
  - apply Z.mul_div_le; lia.
  - pose proof (Z.mul_succ_div_gt (now - sentAt) 3600000). lia.
  - apply formatTime_just_now.
  - apply formatTime_minutes.
  - apply formatTime_hours.
  - apply formatTime_date.
Qed.

End TimeLabels.

(** The four examples of the specification: 30 seconds, 5 minutes, 90
    minutes and 2 days before [now]. *)
Lemma formatTime_relative_label_examples :
  formatTime plain_date 1000000000 (1000000000 - 30000) = js "Just now"
  /\ formatTime plain_date 1000000000 (1000000000 - 300000) = js "5m ago"
  /\ formatTime plain_date 1000000000 (1000000000 - 5400000) = js "1h ago"
  /\ formatTime plain_date 1000000000 (1000000000 - 172800000)
     = plain_date (1000000000 - 172800000).
Proof.
  pose proof (formatTime_relative_label plain_date 1000000000 (1000000000 - 30000)
                ltac:(lia)) as (_ & _ & H1 & _).
  pose proof (formatTime_relative_label plain_date 1000000000 (1000000000 - 300000)
                ltac:(lia)) as (_ & _ & _ & H2 & _).
  pose proof (formatTime_relative_label plain_date 1000000000 (1000000000 - 5400000)
                ltac:(lia)) as (_ & _ & _ & _ & H3 & _).
  pose proof (formatTime_relative_label plain_date 1000000000 (1000000000 - 172800000)
                ltac:(lia)) as (_ & _ & _ & _ & _ & H4).
  cbv zeta in H1, H2, H3, H4.
  split; [apply H1; lia |].
  split; [rewrite H2 by lia; vm_compute; reflexivity |].
  split; [rewrite H3 by lia; vm_compute; reflexivity |].
  apply H4; lia.
Defined.

(** ** Markup of the rendered messages *)

Lemma scan_app (m : Mode) (a b : jsstring) :
  scan m (a ++ b)
  = let (m1, out1) := scan m a in
    let (m2, out2) := scan m1 b in
    (m2, out1 ++ out2).
Proof.
  revert m. induction a as [|c a IH]; intros m; simpl.
  - destruct (scan m b). reflexivity.
  - destruct (feed m c) as [m1 out1]. rewrite IH.
    destruct (scan m1 a) as [m2 out2].
    destruct (scan m2 b) as [m3 out3].
    rewrite app_assoc. reflexivity.
Qed.

Lemma scan_markup_free (s : jsstring) :
  markup_free s -> scan Data s = (Data, []).
Proof.
  induction 1 as [|c s Hc _ IH]; simpl; [reflexivity |].
  apply N.eqb_neq in Hc. rewrite Hc, IH. reflexivity.
Qed.

Lemma markup_free_app (a b : jsstring) :
  markup_free a -> markup_free b -> markup_free (a ++ b).
Proof. unfold markup_free. intros Ha Hb. apply Forall_app. split; assumption. Qed.

Lemma escape_unit_markup_free (c : N) : markup_free (escape_unit c).
Proof.
  unfold escape_unit, markup_free.
  destruct (N.eqb_spec c 38); [repeat constructor; discriminate |].
  destruct (N.eqb_spec c 160); [repeat constructor; discriminate |].
  destruct (N.eqb_spec c 60) as [|Hne]; [repeat constructor; discriminate |].
  destruct (N.eqb_spec c 62); [repeat constructor; discriminate |].
  repeat constructor. exact Hne.
Qed.

Lemma escapeHtml_markup_free (text : jsstring) : markup_free (escapeHtml text).
Proof.
  unfold escapeHtml. induction text as [|c text IH]; simpl.
  - constructor.
  - apply markup_free_app; [apply escape_unit_markup_free | exact IH].
Qed.

Lemma no_lt_markup_free (s : jsstring) : no_lt s = true -> markup_free s.
Proof.
  unfold no_lt, markup_free. intros H. apply List.Forall_forall. intros c Hc.
  rewrite forallb_forall in H. specialize (H c Hc).
  apply negb_true_iff in H. apply N.eqb_neq. exact H.
Qed.

Lemma small_numeral_markup_free (n : Z) :
  0 <= n < 60 -> markup_free (js (pretty n)).
Proof.
  intros Hn. apply no_lt_markup_free.
  assert (Hall : forallb (fun k => no_lt (js (pretty (Z.of_nat k)))) (seq 0 60) = true)
    by (vm_compute; reflexivity).
  rewrite forallb_forall in Hall.
  specialize (Hall (Z.to_nat n)).
  rewrite Z2Nat.id in Hall by lia.
  apply Hall. apply in_seq. lia.
Qed.

Section Markup.

Variable toLocaleDateString : Z -> jsstring.
Hypothesis date_markup_free : forall t, markup_free (toLocaleDateString t).

Lemma formatTime_markup_free (now timestamp : Z) :
  markup_free (formatTime toLocaleDateString now timestamp).
Proof.
  unfold formatTime. cbv zeta.
  destruct (Z.ltb_spec ((now - timestamp) / 60000) 1) as [|H1].
  - apply no_lt_markup_free. vm_compute. reflexivity.
  - destruct (Z.ltb_spec ((now - timestamp) / 60000) 60) as [H2|H2].
    + apply markup_free_app.
      * apply small_numeral_markup_free. lia.
      * apply no_lt_markup_free. vm_compute. reflexivity.
    + destruct (Z.ltb_spec ((now - timestamp) / 60000 / 60) 24) as [H3|H3].
      * apply markup_free_app.
        -- apply small_numeral_markup_free.
           assert (0 <= (now - timestamp) / 60000 / 60)
             by (apply Z.div_pos; lia).
           lia.
        -- apply no_lt_markup_free. vm_compute. reflexivity.
      * apply date_markup_free.
Qed.

Lemma scan_tpl_head (viewer : User) (msg : Message) :
  scan Data (tpl_head (messageClass viewer msg))
  = (Data, [js "div"; js "div"; js "span"]).
Proof.
  unfold messageClass. destruct (sender_id msg =? user_id viewer);
    vm_compute; reflexivity.
Qed.

Lemma scan_render_message (now : Z) (viewer : User) (msg : Message) :
  markup_free (message_text msg) ->
  scan Data (render_message toLocaleDateString now viewer msg)
  = (Data, template_elements).
Proof.
  intros Htext. unfold render_message.
  rewrite scan_app, scan_tpl_head.
  rewrite scan_app, (scan_markup_free _ (escapeHtml_markup_free _)).
  rewrite scan_app.
  replace (scan Data tpl_after_sender) with (Data, [js "span"])
    by (vm_compute; reflexivity).
  rewrite scan_app, (scan_markup_free _ (formatTime_markup_free _ _)).
  rewrite scan_app.
  replace (scan Data tpl_after_time) with (Data, [js "div"])
    by (vm_compute; reflexivity).
  rewrite scan_app, (scan_markup_free _ Htext).
  replace (scan Data tpl_tail) with (Data, @nil jsstring)
    by (vm_compute; reflexivity).
  reflexivity.
Qed.

Lemma scan_render_html (now : Z) (viewer : User) (msgs : list Message) :
  Forall (fun m => markup_free (message_text m)) msgs ->
  scan Data (render_html toLocaleDateString now viewer msgs)
  = (Data, concat (map (fun _ => template_elements) msgs)).
Proof.
  unfold render_html. induction 1 as [|m msgs Hm _ IH]; [reflexivity |].
  cbn [map concat].
  rewrite scan_app, (scan_render_message _ _ _ Hm), IH. reflexivity.
Qed.

Lemma render_html_verbatim (now : Z) (viewer : User) (msgs : list Message) (m : Message) :
  In m msgs ->
  exists before after,
    render_html toLocaleDateString now viewer msgs
    = before ++ message_text m ++ after.
Proof.
  intros Hin. apply in_split in Hin as (l1 & l2 & ->).
  unfold render_html. rewrite map_app, concat_app. cbn [map concat].
  exists (concat (map (render_message toLocaleDateString now viewer) l1)
          ++ tpl_head (messageClass viewer m) ++ escapeHtml (sender_name m)
          ++ tpl_after_sender ++ formatTime toLocaleDateString now (sent_at m)
          ++ tpl_after_time),
         (tpl_tail ++ concat (map (render_message toLocaleDateString now viewer) l2)).
  unfold render_message. repeat rewrite <- app_assoc. reflexivity.
Qed.

(** C1 (amended).  The renderer escapes the sender's name, which therefore
    never opens a tag, and inserts the message text as it is: the text of
    every message stands verbatim in the markup.  So the parser finds the
    elements of the template and no other exactly when the texts are
    already free of [<], whatever the names are. *)
Theorem render_html_text_verbatim (now : Z) (viewer : User) (msgs : list Message) :
  (forall name, markup_free (escapeHtml name))
  /\ (forall m, In m msgs ->
        exists before after,
          render_html toLocaleDateString now viewer msgs
          = before ++ message_text m ++ after)
  /\ (Forall (fun m => markup_free (message_text m)) msgs ->
      elements (render_html toLocaleDateString now viewer msgs)
      = concat (map (fun _ => template_elements) msgs)).
Proof.
  split; [apply escapeHtml_markup_free |].
  split; [intros m; apply render_html_verbatim |].
  intros Hfree. unfold elements. rewrite (scan_render_html _ _ _ Hfree).
  reflexivity.
Qed.

End Markup.

Lemma fixed_date_markup_free (t : Z) : markup_free (fixed_date t).
Proof. apply no_lt_markup_free. vm_compute. reflexivity. Qed.

(** The amended C1 on a message whose sender name holds markup and whose
    text holds none. *)
Lemma render_html_text_verbatim_witness :
  elements (render_html fixed_date 0 alice [plain_message]) = template_elements
  /\ exists before after,
       render_html fixed_date 0 alice [plain_message]
       = before ++ js "hello" ++ after.
Proof.
  pose proof (render_html_text_verbatim fixed_date fixed_date_markup_free
                0 alice [plain_message]) as (_ & Hin & H).
  split.
  - rewrite H; [reflexivity |]. repeat constructor; discriminate.
  - apply (Hin plain_message). left. reflexivity.
Defined.

(** C1 as stated fails: a message text [<script>x</script>] reaches the
    parser as markup, and a [script] element is created in the message's
    content; likewise an [img] element with its attributes for a text that
    holds one. *)
Lemma script_text_becomes_element :
  elements (render_html fixed_date 0 alice [old_message])
  = template_elements ++ [js "script"]
  /\ elements (render_html fixed_date 0 alice [img_message])
     = template_elements ++ [js "img"].
Proof. split; vm_compute; reflexivity. Qed.

Section RefreshProperties.

Variable toLocaleDateString : Z -> jsstring.

(** C10.  A successful response whose [messages] property is missing,
    [null] or otherwise falsy is a successful refresh: the collection
    becomes empty, the placeholder is written to the message list, and
    neither a notice nor a log line is produced. *)
Theorem loadMessages_without_array (w : World) (v : Falsy) (c : ContainerEl) :
  messagesContainer (dom w) = Some c ->
  exists w',
    loadMessages_response toLocaleDateString (Http true (JsonValue (FalsyField v))) w
    = Ok tt w'
    /\ messages (this w') = []
    /\ option_map innerHTML (messagesContainer (dom w')) = Some empty_html
    /\ toasts (dom w') = toasts (dom w)
    /\ console (dom w') = console (dom w)
    /\ env w' = env w.
Proof.
  intros Hc. open_world w. subst.
  eexists. split; [reflexivity |]. cbn. auto.
Qed.

(** A failed response leaves everything but the notices and the log as it
    was. *)
Lemma loadMessages_response_failed (w : World) (r : Response) :
  failed r ->
  loadMessages_response toLocaleDateString r w
  = Ok tt (set_toasts (toasts (dom w) ++ [js "Failed to load messages. Please try again."])
             (set_console (console (dom w) ++ [js "Error loading messages:"]) w)).
Proof.
  unfold failed. intros Hr. destruct r as [|ok body]; cbn in Hr; subst;
    open_world w; reflexivity.
Qed.

(** C5.  When a refresh fails (the transport fails or the status is not a
    success) the collection and the rendered list stay as they were, the
    failure is logged and a notice is shown, and [loadMessages] returns
    normally.  For a refresh started by the timer nothing escapes to the
    browser, the timers are untouched, and the next tick of an active timer
    sends the request again. *)
Theorem loadMessages_failure_recoverable
    (w : World) (request : nat) (rest : list (nat * Task)) (r : Response) :
  failed r ->
  (exists w',
      loadMessages_response toLocaleDateString r w = Ok tt w'
      /\ messages (this w') = messages (this w)
      /\ messagesContainer (dom w') = messagesContainer (dom w)
      /\ toasts (dom w')
         = toasts (dom w) ++ [js "Failed to load messages. Please try again."]
      /\ console (dom w') = console (dom w) ++ [js "Error loading messages:"]
      /\ pollingInterval (this w') = pollingInterval (this w)
      /\ env w' = env w)
  /\ (take_task request (inflight (env w)) = Some (AwaitMessages FromTick, rest) ->
      exists w',
        step toLocaleDateString (Arrives request r) w = Some w'
        /\ messages (this w') = messages (this w)
        /\ toasts (dom w')
           = toasts (dom w) ++ [js "Failed to load messages. Please try again."]
        /\ uncaught (env w') = uncaught (env w)
        /\ pollingInterval (this w') = pollingInterval (this w)
        /\ intervals (env w') = intervals (env w)
        /\ forall h, interval_active h w = true ->
             exists w'',
               step toLocaleDateString (Tick h) w' = Some w''
               /\ network (env w'') = network (env w') ++ [GET (messages_url w')]).
Proof.
  intros Hr. split.
  - rewrite (loadMessages_response_failed w r Hr).
    eexists. split; [reflexivity |]. open_world w. auto 10.
  - intros Htake. unfold step. rewrite Htake.
    unfold resume, mbind, M_bind, bind.
    rewrite (loadMessages_response_failed _ r Hr).
    eexists. split; [reflexivity |].
    open_world w. repeat (split; [reflexivity |]).
    intros h Hh. unfold interval_active. cbn. rewrite Hh.
    eexists. split; reflexivity.
Qed.

(** A successful status whose body cannot be read, or is [null], ends in
    the [catch] block as well, before the collection is assigned. *)
Lemma loadMessages_unreadable_body (w : World) (body : Body) :
  body = NotJson \/ body = JsonNull ->
  loadMessages_response toLocaleDateString (Http true body) w
  = Ok tt (set_toasts (toasts (dom w) ++ [js "Failed to load messages. Please try again."])
             (set_console (console (dom w) ++ [js "Error loading messages:"]) w)).
Proof. intros [-> | ->]; open_world w; reflexivity. Qed.

(** When rendering throws (messages to show but no current user), the
    [catch] block runs after the collection has been replaced. *)
Lemma loadMessages_render_throws (w : World) (c : ContainerEl) (m : Message) (ms : list Message) :
  messagesContainer (dom w) = Some c ->
  currentUser (this w) = None ->
  exists w',
    loadMessages_response toLocaleDateString (ok_with (m :: ms)) w = Ok tt w'
    /\ messages (this w') = m :: ms
    /\ messagesContainer (dom w') = Some c
    /\ toasts (dom w')
       = toasts (dom w) ++ [js "Failed to load messages. Please try again."].
Proof.
  intros Hc Hu. open_world w. subst.
  eexists. split; [reflexivity |]. exec. auto.
Qed.

End RefreshProperties.

Lemma loadMessages_without_array_witness :
  exists w',
    loadMessages_response plain_date (Http true (JsonValue (FalsyField JsNull))) fresh_widget
    = Ok tt w'
    /\ messages (this w') = []
    /\ option_map innerHTML (messagesContainer (dom w')) = Some empty_html
    /\ toasts (dom w') = toasts (dom fresh_widget)
    /\ console (dom w') = console (dom fresh_widget)
    /\ env w' = env fresh_widget.
Proof.
  apply (loadMessages_without_array plain_date fresh_widget JsNull (mkContainer [] false)).
  reflexivity.
Defined.

(** ** The poll timer *)

Section TimerProperties.

Variable toLocaleDateString : Z -> jsstring.

Lemma same_timers_inv (w w' : World) :
  same_timers w w' -> timer_inv w -> timer_inv w'.
Proof. unfold same_timers, timer_inv. intros [-> ->]. auto. Qed.

Lemma settle_same_timers (r : Res unit) : same_timers (world_of r) (settle r).
Proof. destruct r as [[] w|w]; split; reflexivity. Qed.

Lemma open_same_timers (offer : Z) (user : option User) (title : option jsstring) (w : World) :
  same_timers w (world_of (open offer user title w)).
Proof. unfold same_timers. open_world w. run_method. Qed.

Lemma sendMessage_same_timers (w : World) :
  same_timers w (world_of (sendMessage w)).
Proof. unfold same_timers. open_world w. run_method. Qed.

Lemma loadMessages_request_same_timers (caller : Caller) (w : World) :
  same_timers w (world_of (loadMessages_request caller w)).
Proof. unfold same_timers. open_world w. split; reflexivity. Qed.

Lemma loadMessages_response_same_timers (r : Response) (w : World) :
  same_timers w (world_of (loadMessages_response toLocaleDateString r w)).
Proof.
  unfold same_timers. open_world w. run_method.
Qed.

Lemma loadMessages_response_returns (r : Response) (w : World) :
  threw (loadMessages_response toLocaleDateString r w) = false.
Proof. open_world w. run_method. Qed.

Lemma sendMessage_finally_same_timers (w : World) :
  same_timers w (world_of (sendMessage_finally w)).
Proof. unfold same_timers. open_world w. run_method. Qed.

Lemma sendMessage_response_same_timers (r : Response) (w : World) :
  same_timers w (world_of (sendMessage_response r w)).
Proof.
  unfold same_timers. open_world w. run_method.
Qed.

Lemma filter_self (h : nat) :
  filter (fun x => negb (Nat.eqb x h)) [h] = [].
Proof. cbn. rewrite Nat.eqb_refl. reflexivity. Qed.

(** Under the invariant [stopPolling] clears the one timer there is. *)
Lemma stopPolling_stops (w : World) :
  timer_inv w ->
  exists w',
    stopPolling w = Ok tt w'
    /\ pollingInterval (this w') = None
    /\ intervals (env w') = []
    /\ dom w' = dom w
    /\ offerId (this w') = offerId (this w)
    /\ messages (this w') = messages (this w)
    /\ lastHandle (env w') = lastHandle (env w).
Proof.
  intros Hinv. open_world w. exec.
  destruct poll0 as [[|h]|].
  - destruct Hinv as [Hh _]. contradiction.
  - destruct Hinv as [_ ->]. rewrite filter_self.
    eexists. split; [reflexivity |]. exec. auto 10.
  - subst. eexists. split; [reflexivity |]. exec. auto 10.
Qed.

(** Under the invariant [startPolling] leaves exactly one timer, a new one. *)
Lemma startPolling_starts (w : World) :
  timer_inv w ->
  exists w',
    startPolling w = Ok tt w'
    /\ pollingInterval (this w') = Some (S (lastHandle (env w)))
    /\ intervals (env w') = [S (lastHandle (env w))]
    /\ dom w' = dom w
    /\ offerId (this w') = offerId (this w)
    /\ messages (this w') = messages (this w).
Proof.
  intros Hinv. open_world w. exec.
  destruct poll0 as [[|h]|].
  - destruct Hinv as [Hh _]. contradiction.
  - destruct Hinv as [_ ->]. rewrite filter_self.
    eexists. split; [reflexivity |]. exec. auto 10.
  - subst. eexists. split; [reflexivity |]. exec. auto 10.
Qed.

Lemma stopPolling_inv (w : World) :
  timer_inv w -> timer_inv (world_of (stopPolling w)).
Proof.
  intros Hinv. destruct (stopPolling_stops w Hinv) as (w' & -> & Hp & Hi & _).
  unfold timer_inv, world_of. rewrite Hp. exact Hi.
Qed.

Lemma startPolling_inv (w : World) :
  timer_inv w -> timer_inv (world_of (startPolling w)).
Proof.
  intros Hinv. destruct (startPolling_starts w Hinv) as (w' & -> & Hp & Hi & _).
  unfold timer_inv, world_of. rewrite Hp. split; [discriminate | exact Hi].
Qed.

Lemma close_inv (w : World) :
  timer_inv w -> timer_inv (world_of (close w)).
Proof.
  intros Hinv. open_world w. exec.
  destruct modal0; [| exact Hinv].
  destruct poll0 as [[|h]|].
  - destruct Hinv as [Hh _]. contradiction.
  - destruct Hinv as [_ ->]. rewrite filter_self. run_method.
  - subst. run_method.
Qed.

Lemma destroy_inv (w : World) :
  timer_inv w -> timer_inv (world_of (destroy w)).
Proof.
  intros Hinv. unfold destroy, mbind, M_bind, bind.
  pose proof (stopPolling_inv w Hinv) as Hinv'.
  destruct (stopPolling w) as [[] w'|w']; cbn in Hinv'.
  - apply close_inv. exact Hinv'.
  - exact Hinv'.
Qed.

Lemma resume_inv (t : Task) (r : Response) (w : World) :
  timer_inv w -> timer_inv (world_of (resume toLocaleDateString t r w)).
Proof.
  intros Hinv. destruct t as [caller|].
  - unfold resume, mbind, M_bind, bind.
    pose proof (loadMessages_response_same_timers r w) as Hsame.
    pose proof (loadMessages_response_returns r w) as Hret.
    destruct (loadMessages_response toLocaleDateString r w) as [[] w'|w'];
      [| discriminate].
    cbn in Hsame. pose proof (same_timers_inv _ _ Hsame Hinv) as Hinv'.
    destruct caller; unfold after_loadMessages.
    + exact Hinv'.
    + unfold open_resume, mbind, M_bind, bind.
      destruct (startPolling_starts w' Hinv') as (w'' & -> & Hp & Hi & _).
      assert (timer_inv w'') as Hinv''
        by (unfold timer_inv; rewrite Hp; split; [discriminate | exact Hi]).
      clear - Hinv''. open_world w''. run_method.
    + apply (same_timers_inv w'); [apply sendMessage_finally_same_timers | exact Hinv'].
  - apply (same_timers_inv w); [apply sendMessage_response_same_timers | exact Hinv].
Qed.

Lemma settle_inv (r : Res unit) : timer_inv (world_of r) -> timer_inv (settle r).
Proof. apply same_timers_inv, settle_same_timers. Qed.

(** Every turn of the event loop keeps the invariant. *)
Lemma step_timer_inv (ev : Event) (w w' : World) :
  timer_inv w -> step toLocaleDateString ev w = Some w' -> timer_inv w'.
Proof.
  intros Hinv Hstep. destruct ev; unfold step in Hstep.
  - apply (inj Some) in Hstep; subst w'. apply settle_inv.
    apply (same_timers_inv w); [apply open_same_timers | exact Hinv].
  - apply (inj Some) in Hstep; subst w'. apply settle_inv, close_inv, Hinv.
  - apply (inj Some) in Hstep; subst w'. apply settle_inv, destroy_inv, Hinv.
  - apply (inj Some) in Hstep; subst w'. apply settle_inv.
    apply (same_timers_inv w); [apply sendMessage_same_timers | exact Hinv].
  - apply (inj Some) in Hstep; subst w'. apply settle_inv, startPolling_inv, Hinv.
  - apply (inj Some) in Hstep; subst w'. apply settle_inv, stopPolling_inv, Hinv.
  - destruct (messageInput (dom w)) as [el|]; [| discriminate].
    destruct (input_disabled el); [discriminate |].
    apply (inj Some) in Hstep; subst w'. exact Hinv.
  - destruct (interval_active h w); [| discriminate].
    apply (inj Some) in Hstep; subst w'. apply settle_inv.
    apply (same_timers_inv w); [apply loadMessages_request_same_timers | exact Hinv].
  - destruct (take_task request (inflight (env w))) as [[t rest]|]; [| discriminate].
    apply (inj Some) in Hstep; subst w'. apply settle_inv, resume_inv. exact Hinv.
  - destruct (clock (env w) <=? t); [| discriminate].
    apply (inj Some) in Hstep; subst w'. exact Hinv.
  - destruct (toasts (dom w)); [discriminate |].
    apply (inj Some) in Hstep; subst w'. exact Hinv.
Qed.

Lemma reachable_timer_inv (w : World) :
  reachable toLocaleDateString w -> timer_inv w.
Proof.
  induction 1 as [d o t | ev w w' _ IH Hstep].
  - reflexivity.
  - exact (step_timer_inv ev w w' IH Hstep).
Qed.

End TimerProperties.

Section TimerClaims.

Variable toLocaleDateString : Z -> jsstring.

Lemma startPolling_repeated (n : nat) (w : World) :
  reachable toLocaleDateString w ->
  exists w' h,
    run toLocaleDateString (repeat CallStartPolling (S n)) w = Some w'
    /\ reachable toLocaleDateString w'
    /\ pollingInterval (this w') = Some h
    /\ intervals (env w') = [h].
Proof.
  revert w. induction n as [|n IH]; intros w Hreach.
  - pose proof (reachable_timer_inv _ _ Hreach) as Hinv.
    destruct (startPolling_starts w Hinv) as (w' & Hrun & Hp & Hi & _).
    assert (Hstep : step toLocaleDateString CallStartPolling w = Some w')
      by (unfold step; rewrite Hrun; reflexivity).
    exists w', (S (lastHandle (env w))).
    cbn [repeat run]. rewrite Hstep.
    repeat split; try assumption.
    exact (reachable_step _ _ _ _ Hreach Hstep).
  - pose proof (reachable_timer_inv _ _ Hreach) as Hinv.
    destruct (startPolling_starts w Hinv) as (w1 & Hrun & _).
    assert (Hstep : step toLocaleDateString CallStartPolling w = Some w1)
      by (unfold step; rewrite Hrun; reflexivity).
    destruct (IH w1 (reachable_step _ _ _ _ Hreach Hstep)) as (w' & h & Hrest).
    exists w', h.
    change (repeat CallStartPolling (S (S n)))
      with (CallStartPolling :: repeat CallStartPolling (S n)).
    cbn [run]. rewrite Hstep. exact Hrest.
Qed.

(** C7.  In every world the widget can reach at most one poll timer is
    active.  Calling [startPolling] any number of times in a row leaves
    exactly one, the one whose handle the widget holds; and [stopPolling]
    with no timer running returns normally and changes nothing. *)
Theorem at_most_one_poll_timer (w : World) :
  reachable toLocaleDateString w ->
  (length (intervals (env w)) <= 1)%nat
  /\ (forall n, exists w' h,
        run toLocaleDateString (repeat CallStartPolling (S n)) w = Some w'
        /\ pollingInterval (this w') = Some h
        /\ intervals (env w') = [h])
  /\ (pollingInterval (this w) = None ->
      intervals (env w) = [] /\ stopPolling w = Ok tt w).
Proof.
  intros Hreach. pose proof (reachable_timer_inv _ _ Hreach) as Hinv.
  split; [| split].
  - unfold timer_inv in Hinv. destruct (pollingInterval (this w)).
    + destruct Hinv as [_ ->]. cbn. lia.
    + rewrite Hinv. cbn. lia.
  - intros n. destruct (startPolling_repeated n w Hreach) as (w' & h & Hrun & _ & Hp & Hi).
    exists w', h. auto.
  - intros Hnone. unfold timer_inv in Hinv. rewrite Hnone in Hinv.
    split; [exact Hinv |].
    clear Hreach Hinv. open_world w. subst. reflexivity.
Qed.

(** C8 (amended).  In a reachable world whose modal exists, [close] returns
    normally with the modal hidden, no handle held and no timer active, no
    conversation identifier and an empty draft; calling it again changes
    nothing.  The Message Collection is not touched, neither by [close] nor
    by an [open] that switches the conversation. *)
Theorem close_clears_conversation (w : World) (display : jsstring) :
  reachable toLocaleDateString w ->
  modal (dom w) = Some display ->
  exists w',
    close w = Ok tt w'
    /\ modal (dom w') = Some (js "none")
    /\ pollingInterval (this w') = None
    /\ intervals (env w') = []
    /\ offerId (this w') = None
    /\ option_map value (messageInput (dom w'))
       = option_map (fun _ => []) (messageInput (dom w))
    /\ messages (this w') = messages (this w)
    /\ close w' = Ok tt w'
    /\ forall offer user title,
         messages (this (world_of (open offer user title w))) = messages (this w).
Proof.
  intros Hreach Hmodal. pose proof (reachable_timer_inv _ _ Hreach) as Hinv.
  clear Hreach. open_world w. exec. subst.
  assert (Hopen : forall (offer : Z) (user : option User) (title : option jsstring),
             messages (this (world_of (open offer user title
               (mkWorld (mkFields offer0 user0 msgs0 poll0 opts0)
                  (mkDom (Some display) chatTitle0 messagesContainer0 messageInput0
                         sendButton0 inputFocused0 toasts0 console0)
                  (mkBrowser intervals0 lastHandle0 inflight0 nextRequest0
                             network0 clock0 uncaught0))))) = msgs0)
    by (intros; run_method).
  destruct poll0 as [[|h]|].
  - destruct Hinv as [Hh _]. contradiction.
  - destruct Hinv as [_ ->]. rewrite filter_self.
    destruct messageInput0; eexists; (split; [reflexivity |]); exec; auto 10.
  - subst. destruct messageInput0; eexists; (split; [reflexivity |]); exec; auto 10.
Qed.

End TimerClaims.

(** ** Opening, closing and switching *)

Lemma reachable_run (toLocaleDateString : Z -> jsstring) (evs : list Event) (w w' : World) :
  reachable toLocaleDateString w ->
  run toLocaleDateString evs w = Some w' ->
  reachable toLocaleDateString w'.
Proof.
  revert w. induction evs as [|ev evs IH]; intros w Hreach Hrun; cbn [run] in Hrun.
  - apply (inj Some) in Hrun. subst w'. exact Hreach.
  - destruct (step toLocaleDateString ev w) as [w1|] eqn:Hstep; [| discriminate].
    apply (IH w1); [| exact Hrun].
    exact (reachable_step _ _ _ _ Hreach Hstep).
Qed.

Lemma after_events_reachable (evs : list Event) (w : World) :
  run plain_date evs fresh_widget = Some w ->
  reachable plain_date w.
Proof.
  apply reachable_run. apply reachable_construct.
Qed.

(** C3 (the code departs from it).  [open] followed at once by [close],
    with the initial refresh still in flight: [close] finds no timer to
    stop, and when the refresh returns [open] goes on to [startPolling].
    The widget is then closed (hidden, no conversation) with a poll timer
    running. *)
Theorem open_then_close_leaves_timer (offer : Z) (user : option User) (title : option jsstring) :
  exists w_closed w,
    run plain_date [CallOpen offer user title; CallClose] fresh_widget = Some w_closed
    /\ intervals (env w_closed) = []
    /\ step plain_date (Arrives 0 (ok_with [])) w_closed = Some w
    /\ offerId (this w) = None
    /\ modal (dom w) = Some (js "none")
    /\ pollingInterval (this w) = Some 1%nat
    /\ intervals (env w) = [1%nat].
Proof.
  eexists. eexists.
  split; [reflexivity |].
  split; [reflexivity |].
  split; [reflexivity |].
  repeat split; reflexivity.
Qed.


(** C8 as stated fails: the collection fetched for a conversation is still
    there after [close], and after a switch to another conversation. *)
Lemma close_keeps_messages :
  exists w_closed w_switched,
    run plain_date [CallOpen 1 (Some alice) None;
                    Arrives 0 (ok_with [plain_message]);
                    CallClose] fresh_widget = Some w_closed
    /\ messages (this w_closed) = [plain_message]
    /\ run plain_date [CallOpen 1 (Some alice) None;
                       Arrives 0 (ok_with [plain_message]);
                       CallOpen 2 (Some alice) None] fresh_widget = Some w_switched
    /\ messages (this w_switched) = [plain_message].
Proof.
  eexists. eexists.
  split; [vm_compute; reflexivity |].
  split; [vm_compute; reflexivity |].
  split; vm_compute; reflexivity.
Qed.

Section SwitchClaims.

Variable toLocaleDateString : Z -> jsstring.





End SwitchClaims.

(** ** Sending *)

Section SendClaims.

Variable toLocaleDateString : Z -> jsstring.

(** C4 (amended).  With [text] the trimmed value of the input: an empty [text] makes
    [sendMessage] return with nothing changed; a [text] longer than the
    configured maximum makes it return with one more notice, which cites the
    maximum, and nothing else changed; otherwise the POST is sent with
    [text] and the active conversation.  So a request leaves only when
    [text] is non-empty and within the maximum, and the maximum is 1000
    when the constructor was given none. *)
Theorem sendMessage_validates (w : World) (el : InputEl) (b : bool) :
  messageInput (dom w) = Some el ->
  sendButton (dom w) = Some b ->
  let text := trim (value el) in
  let max := maxMessageLength (options (this w)) in
  (text = [] -> sendMessage w = Ok tt w)
  /\ (text <> [] -> max < Z.of_nat (length text) ->
      sendMessage w
      = Ok tt (set_toasts
                 (toasts (dom w)
                  ++ [js "Message is too long. Maximum " ++ js (pretty max)
                      ++ js " characters."]) w))
  /\ (text <> [] -> Z.of_nat (length text) <= max ->
      exists w',
        sendMessage w = Ok tt w'
        /\ network (env w')
           = network (env w)
             ++ [POST (apiUrl (options (this w)) ++ js "/messages") (offerId (this w)) text]
        /\ inflight (env w') = inflight (env w) ++ [(nextRequest (env w), AwaitPosted)]
        /\ toasts (dom w') = toasts (dom w))
  /\ (network (env (world_of (sendMessage w))) <> network (env w) ->
      text <> [] /\ Z.of_nat (length text) <= max)
  /\ (forall o, opt_maxMessageLength o = None ->
        maxMessageLength (build_options o) = 1000).
Proof.
  intros Hinput Hbutton text max. subst text max.
  open_world w. subst. destruct el as [v dis]. exec.
  destruct (trim v) as [|c t] eqn:Htrim.
  - split; [reflexivity |].
    split; [intros Hne; contradiction |].
    split; [intros Hne; contradiction |].
    split; [intros Hne; contradiction |].
    intros o Ho. unfold build_options. rewrite Ho. reflexivity.
  - destruct (Z.ltb_spec (maxMessageLength opts0) (Z.of_nat (length (c :: t)))) as [Hlong|Hfits].
    + split; [discriminate |].
      split; [reflexivity |].
      split; [intros _ Hle; lia |].
      split; [intros Hne; contradiction |].
      intros o Ho. unfold build_options. rewrite Ho. reflexivity.
    + split; [discriminate |].
      split; [intros _ Hlt; lia |].
      split; [intros _ _; eexists; split; [reflexivity | auto] |].
      split; [intros _; split; [discriminate | exact Hfits] |].
      intros o Ho. unfold build_options. rewrite Ho. reflexivity.
Qed.

(** C4 as stated fails: the length that counts is the trimmed one.  A
    draft of ten units with maximum five, longer than the maximum, is sent
    (as its five trimmed units) and no notice is shown. *)
Lemma sendMessage_measures_trimmed_text :
  let w := construct (page (js "hello     ")) (mkUserOptions None None (Some 5)) 0 in
  Z.of_nat (length (js "hello     ")) = 10
  /\ maxMessageLength (options (this w)) = 5
  /\ network (env (world_of (sendMessage w)))
     = [POST (js "http://localhost:3000/api/messages") None (js "hello")]
  /\ toasts (dom (world_of (sendMessage w))) = [].
Proof. repeat split; vm_compute; reflexivity. Qed.



End SendClaims.

(** ** The claims on the example widget *)

Lemma polling_world_reachable : reachable plain_date polling_world.
Proof.
  apply (after_events_reachable
           [CallOpen 1 (Some alice) None; Arrives 0 (ok_with [plain_message]); Tick 1]).
  vm_compute. reflexivity.
Qed.



Lemma sendMessage_validates_witness :
  sendMessage fresh_widget = Ok tt fresh_widget
  /\ (exists w',
        sendMessage drafting_world = Ok tt w'
        /\ network (env w')
           = network (env drafting_world)
             ++ [POST (js "http://localhost:3000/api/messages") (Some 1) (js "hi there")])
  /\ maxMessageLength (build_options no_options) = 1000.
Proof.
  destruct (sendMessage_validates fresh_widget (mkInput [] false) false eq_refl eq_refl)
    as (Hempty & _).
  destruct (sendMessage_validates drafting_world (mkInput (js "  hi there ") false) false
              ltac:(vm_compute; reflexivity) ltac:(vm_compute; reflexivity))
    as (_ & _ & Hsend & _ & Hdefault).
  split; [| split].
  - apply Hempty. vm_compute. reflexivity.
  - destruct Hsend as (w' & Hrun & Hnet & _).
    + vm_compute. discriminate.
    + vm_compute. discriminate.
    + exists w'. split; [exact Hrun | exact Hnet].
  - apply Hdefault. reflexivity.
Defined.

Lemma loadMessages_failure_recoverable_witness :
  exists w',
    step plain_date (Arrives 1 NetworkError) polling_world = Some w'
    /\ messages (this w') = [plain_message]
    /\ intervals (env w') = [1%nat]
    /\ exists w'', step plain_date (Tick 1) w' = Some w''.
Proof.
  destruct (loadMessages_failure_recoverable plain_date polling_world 1%nat [] NetworkError
              eq_refl) as [_ Hpolled].
  destruct (Hpolled ltac:(vm_compute; reflexivity))
    as (w' & Hstep & Hm & _ & _ & _ & Hi & Htick).
  exists w'. split; [exact Hstep |].
  split; [rewrite Hm; vm_compute; reflexivity |].
  split; [rewrite Hi; vm_compute; reflexivity |].
  destruct (Htick 1%nat ltac:(vm_compute; reflexivity)) as (w'' & Hnext & _).
  exists w''. exact Hnext.
Defined.


Lemma at_most_one_poll_timer_witness :
  (length (intervals (env polling_world)) <= 1)%nat
  /\ (exists w' h,
        run plain_date (repeat CallStartPolling 3) polling_world = Some w'
        /\ intervals (env w') = [h])
  /\ stopPolling fresh_widget = Ok tt fresh_widget.
Proof.
  destruct (at_most_one_poll_timer plain_date polling_world polling_world_reachable)
    as (Hone & Hrepeat & _).
  destruct (at_most_one_poll_timer plain_date fresh_widget
              (reachable_construct plain_date (page []) no_options 0))
    as (_ & _ & Hstop).
  split; [exact Hone | split].
  - destruct (Hrepeat 2%nat) as (w' & h & Hrun & _ & Hi).
    exists w', h. split; [exact Hrun | exact Hi].
  - apply Hstop. reflexivity.
Defined.

Lemma close_clears_conversation_witness :
  exists w',
    close polling_world = Ok tt w'
    /\ intervals (env w') = []
    /\ offerId (this w') = None
    /\ option_map value (messageInput (dom w')) = Some []
    /\ messages (this w') = [plain_message].
Proof.
  destruct (close_clears_conversation plain_date polling_world (js "flex")
              polling_world_reachable ltac:(vm_compute; reflexivity))
    as (w' & Hrun & _ & _ & Hi & Ho & Hv & Hm & _).
  exists w'. split; [exact Hrun |].
  split; [exact Hi |].
  split; [exact Ho |].
  split; [rewrite Hv; vm_compute; reflexivity |].
  rewrite Hm. vm_compute. reflexivity.
Defined.

(** * Further properties of the widget *)

(** ** Labels, escaping and configuration *)

Section MoreLabels.

Variable toLocaleDateString : Z -> jsstring.

(** A timestamp after [now] (a server clock ahead of the browser's) is
    labelled "Just now". *)
Theorem formatTime_future (now sentAt : Z) :
  now < sentAt ->
  formatTime toLocaleDateString now sentAt = js "Just now".
Proof. intros Hlt. apply formatTime_just_now. lia. Qed.

(** Every label is "Just now", a count of 1 to 59 minutes, a count of 1 to
    23 hours, or the locale's date: "0m ago", "60m ago", "0h ago" and
    "24h ago" are never shown. *)
Theorem formatTime_label_range (now sentAt : Z) :
  formatTime toLocaleDateString now sentAt = js "Just now"
  \/ (exists n, 1 <= n <= 59
        /\ formatTime toLocaleDateString now sentAt = js (pretty n) ++ js "m ago")
  \/ (exists n, 1 <= n <= 23
        /\ formatTime toLocaleDateString now sentAt = js (pretty n) ++ js "h ago")
  \/ formatTime toLocaleDateString now sentAt = toLocaleDateString sentAt.
Proof.
  destruct (Z_lt_le_dec (now - sentAt) 60000) as [H1|H1].
  { left. apply formatTime_just_now. exact H1. }
  destruct (Z_lt_le_dec (now - sentAt) 3600000) as [H2|H2].
  { right. left. exists ((now - sentAt) / 60000). split.
    - split.
      + apply Z.div_le_lower_bound; lia.
      + assert ((now - sentAt) / 60000 < 60) by (apply Z.div_lt_upper_bound; lia). lia.
    - apply formatTime_minutes. lia. }
  destruct (Z_lt_le_dec (now - sentAt) 86400000) as [H3|H3].
  { right. right. left. exists ((now - sentAt) / 3600000). split.
    - split.
      + apply Z.div_le_lower_bound; lia.
      + assert ((now - sentAt) / 3600000 < 24) by (apply Z.div_lt_upper_bound; lia). lia.
    - apply formatTime_hours. lia. }
  right. right. right. apply formatTime_date. exact H3.
Qed.

End MoreLabels.

Lemma formatTime_future_witness :
  formatTime plain_date 1000 5000 = js "Just now".
Proof. apply (formatTime_future plain_date 1000 5000). lia. Defined.

Lemma escape_unit_not_nil (c : N) : escape_unit c <> [].
Proof.
  unfold escape_unit.
  repeat (match goal with |- context [N.eqb ?a ?b] => destruct (N.eqb a b) end);
    discriminate.
Qed.

Lemma escape_unit_cases (c : N) :
  (c = 38%N /\ escape_unit c = [38; 97; 109; 112; 59]%N)
  \/ (c = 160%N /\ escape_unit c = [38; 110; 98; 115; 112; 59]%N)
  \/ (c = 60%N /\ escape_unit c = [38; 108; 116; 59]%N)
  \/ (c = 62%N /\ escape_unit c = [38; 103; 116; 59]%N)
  \/ (c <> 38%N /\ escape_unit c = [c]).
Proof.
  unfold escape_unit.
  destruct (N.eqb_spec c 38); [left; split; [assumption | reflexivity] |].
  destruct (N.eqb_spec c 160); [right; left; split; [assumption | reflexivity] |].
  destruct (N.eqb_spec c 60); [right; right; left; split; [assumption | reflexivity] |].
  destruct (N.eqb_spec c 62); [right; right; right; left; split; [assumption | reflexivity] |].
  right; right; right; right. split; [assumption | reflexivity].
Qed.

Lemma escape_unit_head (c1 c2 : N) (e1 e2 : jsstring) :
  escape_unit c1 ++ e1 = escape_unit c2 ++ e2 -> c1 = c2 /\ e1 = e2.
Proof.
  destruct (escape_unit_cases c1) as [[? ->]|[[? ->]|[[? ->]|[[? ->]|[? ->]]]]];
  destruct (escape_unit_cases c2) as [[? ->]|[[? ->]|[[? ->]|[[? ->]|[? ->]]]]];
  subst; cbn [app]; intros Heq; split; congruence.
Qed.

(** [escapeHtml] loses nothing: two texts with the same escaped form are
    the same text. *)
Theorem escapeHtml_injective (s1 s2 : jsstring) :
  escapeHtml s1 = escapeHtml s2 -> s1 = s2.
Proof.
  unfold escapeHtml. revert s2.
  induction s1 as [|c1 s1 IH]; intros [|c2 s2]; cbn [map concat]; intros Heq.
  - reflexivity.
  - symmetry in Heq. apply app_eq_nil in Heq as [Hc _].
    destruct (escape_unit_not_nil c2 Hc).
  - apply app_eq_nil in Heq as [Hc _].
    destruct (escape_unit_not_nil c1 Hc).
  - apply escape_unit_head in Heq as [-> Htail].
    f_equal. apply IH. exact Htail.
Qed.

Lemma escapeHtml_injective_witness :
  js "a" ++ js "<b" = js "a<b".
Proof.
  apply (escapeHtml_injective (js "a" ++ js "<b") (js "a<b")).
  vm_compute. reflexivity.
Defined.

(** A text with none of [&], [<], [>] and the no-break space is returned
    as it is, and the escaped form of any text holds neither [<] nor [>] nor
    a no-break space. *)
Theorem escapeHtml_plain_and_clean (text : jsstring) :
  (plain text -> escapeHtml text = text)
  /\ Forall (fun c => c <> 60%N /\ c <> 62%N /\ c <> 160%N) (escapeHtml text).
Proof.
  unfold escapeHtml, plain. split.
  - induction 1 as [|c s (H38 & H160 & H60 & H62) _ IH]; [reflexivity |].
    cbn [map concat]. rewrite IH. unfold escape_unit.
    apply N.eqb_neq in H38, H160, H60, H62. rewrite H38, H160, H60, H62.
    reflexivity.
  - induction text as [|c text IH]; cbn [map concat]; [constructor |].
    apply Forall_app. split; [| exact IH].
    unfold escape_unit.
    destruct (N.eqb_spec c 38); [repeat constructor; discriminate |].
    destruct (N.eqb_spec c 160); [repeat constructor; discriminate |].
    destruct (N.eqb_spec c 60); [repeat constructor; discriminate |].
    destruct (N.eqb_spec c 62); [repeat constructor; discriminate |].
    repeat constructor; assumption.
Qed.

Lemma escapeHtml_plain_and_clean_witness :
  escapeHtml (js "Bob") = js "Bob".
Proof.
  apply (escapeHtml_plain_and_clean (js "Bob")).
  repeat constructor; discriminate.
Defined.

(** An option given to the constructor is kept whatever its value, zero or
    the empty string included: the object spread runs after the [||]
    defaults.  The defaults apply to the keys that are absent. *)
Theorem build_options_given_value_wins (o : UserOptions) :
  apiUrl (build_options o) = default (js "http://localhost:3000/api") (opt_apiUrl o)
  /\ pollInterval (build_options o) = default 3000 (opt_pollInterval o)
  /\ maxMessageLength (build_options o) = default 1000 (opt_maxMessageLength o).
Proof. destruct o as [[a|] [p|] [m|]]; repeat split. Qed.

(** ** Trimming and what is sent *)

Lemma trimStart_blank (s : jsstring) :
  Forall (fun c => is_ws c = true) s -> trimStart s = [].
Proof.
  induction 1 as [|c s Hc _ IH]; [reflexivity |].
  cbn [trimStart]. rewrite Hc. exact IH.
Qed.

Lemma trimStart_head (s : jsstring) (c : N) (rest : jsstring) :
  trimStart s = c :: rest -> is_ws c = false.
Proof.
  induction s as [|a s IH]; cbn [trimStart]; [discriminate |].
  destruct (is_ws a) eqn:Ha; [exact IH |].
  intros Heq. injection Heq as <- _. exact Ha.
Qed.

Lemma trimStart_snoc (s : jsstring) (c : N) :
  is_ws c = false -> trimStart (s ++ [c]) = trimStart s ++ [c].
Proof.
  intros Hc. induction s as [|a s IH]; cbn [trimStart app].
  - rewrite Hc. reflexivity.
  - destruct (is_ws a); [exact IH | reflexivity].
Qed.

Lemma trimEnd_cons (c : N) (s : jsstring) :
  is_ws c = false -> trimEnd (c :: s) = c :: trimEnd s.
Proof.
  intros Hc. unfold trimEnd. cbn [rev].
  rewrite (trimStart_snoc _ _ Hc), rev_app_distr. reflexivity.
Qed.

Lemma trimEnd_last (s : jsstring) (c : N) (front : jsstring) :
  trimEnd s = front ++ [c] -> is_ws c = false.
Proof.
  unfold trimEnd. intros Heq.
  apply (f_equal (@rev N)) in Heq.
  rewrite rev_involutive, rev_app_distr in Heq. cbn [rev app] in Heq.
  exact (trimStart_head _ _ _ Heq).
Qed.

Lemma trim_trimmed (s : jsstring) : trimmed (trim s).
Proof.
  unfold trimmed, trim. split.
  - intros c rest Heq.
    destruct (trimStart s) as [|a t] eqn:Hs; [discriminate |].
    pose proof (trimStart_head _ _ _ Hs) as Ha.
    rewrite (trimEnd_cons _ _ Ha) in Heq.
    injection Heq as <- _. exact Ha.
  - intros c front Heq. exact (trimEnd_last _ _ _ Heq).
Qed.

Lemma trim_blank (s : jsstring) :
  Forall (fun c => is_ws c = true) s -> trim s = [].
Proof.
  intros Hs. unfold trim. rewrite (trimStart_blank _ Hs). reflexivity.
Qed.

Lemma snoc_not_self {A} (l : list A) (x : A) : l <> l ++ [x].
Proof.
  intros Heq. apply (f_equal (@length A)) in Heq.
  rewrite length_app in Heq. cbn in Heq. lia.
Qed.

Section MoreSending.

Variable toLocaleDateString : Z -> jsstring.

(** A draft made of whitespace only (spaces, tabs, line breaks, ...) is
    ignored: [sendMessage] returns with nothing changed, nothing sent and
    no notice. *)
Theorem sendMessage_blank_draft (w : World) (el : InputEl) :
  messageInput (dom w) = Some el ->
  Forall (fun c => is_ws c = true) (value el) ->
  sendMessage w = Ok tt w.
Proof.
  intros Hinput Hblank. open_world w. subst. destruct el as [v dis]. exec.
  rewrite (trim_blank v Hblank). reflexivity.
Qed.

(** Whenever [sendMessage] sends a request, it is the POST to
    [apiUrl/messages] for the conversation active at the call, and its text
    is the trimmed draft: not empty, without whitespace at either end, and
    no longer than the configured maximum. *)
Theorem sendMessage_posts_trimmed_text (w : World) (req : Request) :
  network (env (world_of (sendMessage w))) = network (env w) ++ [req] ->
  exists el text,
    messageInput (dom w) = Some el
    /\ text = trim (value el)
    /\ req = POST (apiUrl (options (this w)) ++ js "/messages") (offerId (this w)) text
    /\ text <> []
    /\ trimmed text
    /\ Z.of_nat (length text) <= maxMessageLength (options (this w)).
Proof.
  intros Hnet. open_world w. exec.
  destruct messageInput0 as [[v dis]|]; [| destruct (snoc_not_self _ _ Hnet)].
  exec.
  destruct (trim v) as [|c t] eqn:Htrim; [destruct (snoc_not_self _ _ Hnet) |].
  destruct (Z.ltb_spec (maxMessageLength opts0) (Z.of_nat (length (c :: t)))) as [Hlong|Hfits];
    [destruct (snoc_not_self _ _ Hnet) |].
  exec. destruct sendButton0; exec; [| destruct (snoc_not_self _ _ Hnet)].
  apply app_inv_head in Hnet. injection Hnet as <-.
  exists (mkInput v dis), (c :: t). exec.
  repeat split; try (symmetry; exact Htrim); try discriminate; try exact Hfits.
  - rewrite <- Htrim. apply trim_trimmed.
  - rewrite <- Htrim. apply trim_trimmed.
Qed.

End MoreSending.

Lemma sendMessage_blank_draft_witness :
  let w := construct (page (js "   ")) no_options 0 in
  sendMessage w = Ok tt w.
Proof.
  apply (sendMessage_blank_draft (construct (page (js "   ")) no_options 0)
           (mkInput (js "   ") false)).
  - reflexivity.
  - repeat constructor.
Defined.

Lemma sendMessage_posts_trimmed_text_witness :
  exists el text,
    messageInput (dom drafting_world) = Some el
    /\ text = trim (value el)
    /\ text = js "hi there".
Proof.
  destruct (sendMessage_posts_trimmed_text drafting_world
              (POST (js "http://localhost:3000/api/messages") (Some 1) (js "hi there"))
              ltac:(vm_compute; reflexivity))
    as (el & text & Hel & Htext & Hreq & _).
  exists el, text. split; [exact Hel |]. split; [exact Htext |].
  congruence.
Defined.

(** ** Refreshing and the event loop *)

Lemma take_task_other (r1 r2 : nat) (l rest1 rest2 : list (nat * Task)) (t1 t2 : Task) :
  r1 <> r2 ->
  take_task r1 l = Some (t1, rest1) ->
  take_task r2 l = Some (t2, rest2) ->
  exists rest, take_task r2 rest1 = Some (t2, rest).
Proof.
  intros Hne. revert rest1 rest2.
  induction l as [|[n t] l IH]; intros rest1 rest2; cbn [take_task]; [discriminate |].
  destruct (Nat.eqb_spec n r1) as [->|Hn1].
  - intros H1 H2. injection H1 as <- <-.
    destruct (Nat.eqb_spec r1 r2) as [|_]; [contradiction |].
    destruct (take_task r2 l) as [[t' rest']|]; [| discriminate].
    injection H2 as <- _. eexists. reflexivity.
  - destruct (take_task r1 l) as [[t' rest']|] eqn:H1l; [| discriminate].
    intros H1 H2. injection H1 as <- <-. cbn [take_task].
    destruct (Nat.eqb_spec n r2) as [->|Hn2].
    + injection H2 as <- _. eexists. reflexivity.
    + destruct (take_task r2 l) as [[t'' rest'']|] eqn:H2l; [| discriminate].
      injection H2 as <- _.
      destruct (IH rest' rest'' eq_refl eq_refl) as (rest & ->).
      eexists. reflexivity.
Qed.

Section MoreRefreshing.

Variable toLocaleDateString : Z -> jsstring.

(** A successful refresh on a widget that has its message list and a
    current user replaces the collection by the list received, writes the
    placeholder (no message) or the rendered messages followed by a scroll
    to the bottom, and produces no notice, no log line and no request. *)
Theorem loadMessages_success
    (w : World) (c : ContainerEl) (viewer : User) (ms : list Message) :
  messagesContainer (dom w) = Some c ->
  currentUser (this w) = Some viewer ->
  exists w',
    loadMessages_response toLocaleDateString (ok_with ms) w = Ok tt w'
    /\ messages (this w') = ms
    /\ messagesContainer (dom w')
       = Some (match ms with
               | [] => mkContainer empty_html false
               | _ :: _ =>
                   mkContainer (render_html toLocaleDateString (clock (env w)) viewer ms) true
               end)
    /\ toasts (dom w') = toasts (dom w)
    /\ console (dom w') = console (dom w)
    /\ env w' = env w.
Proof.
  intros Hc Hu. open_world w. subst.
  destruct ms; eexists; (split; [reflexivity |]); exec; auto 10.
Qed.

Lemma refresh_arrives
    (w : World) (request : nat) (caller : Caller) (rest : list (nat * Task))
    (ms : list Message) :
  take_task request (inflight (env w)) = Some (AwaitMessages caller, rest) ->
  exists w',
    step toLocaleDateString (Arrives request (ok_with ms)) w = Some w'
    /\ messages (this w') = ms
    /\ inflight (env w') = rest.
Proof.
  intros Htake. unfold step. rewrite Htake.
  eexists. split; [reflexivity |].
  clear Htake. open_world w. destruct caller; run_method.
Qed.

(** When two refreshes are in flight, the collection after both responses
    is the one that arrived last, whichever request was sent first. *)
Theorem last_response_wins
    (w : World) (r1 r2 : nat) (c1 c2 : Caller) (rest1 rest2 : list (nat * Task))
    (ms1 ms2 : list Message) :
  r1 <> r2 ->
  take_task r1 (inflight (env w)) = Some (AwaitMessages c1, rest1) ->
  take_task r2 (inflight (env w)) = Some (AwaitMessages c2, rest2) ->
  (exists w',
      run toLocaleDateString [Arrives r1 (ok_with ms1); Arrives r2 (ok_with ms2)] w = Some w'
      /\ messages (this w') = ms2)
  /\ (exists w',
        run toLocaleDateString [Arrives r2 (ok_with ms2); Arrives r1 (ok_with ms1)] w = Some w'
        /\ messages (this w') = ms1).
Proof.
  intros Hne H1 H2. split.
  - destruct (refresh_arrives w r1 c1 rest1 ms1 H1) as (w1 & Hstep1 & _ & Hin1).
    destruct (take_task_other r1 r2 _ _ _ _ _ Hne H1 H2) as (rest & Hrest).
    rewrite <- Hin1 in Hrest.
    destruct (refresh_arrives w1 r2 c2 rest ms2 Hrest) as (w2 & Hstep2 & Hm & _).
    exists w2. cbn [run]. rewrite Hstep1, Hstep2. split; [reflexivity | exact Hm].
  - destruct (refresh_arrives w r2 c2 rest2 ms2 H2) as (w1 & Hstep1 & _ & Hin1).
    destruct (take_task_other r2 r1 _ _ _ _ _ (not_eq_sym Hne) H2 H1) as (rest & Hrest).
    rewrite <- Hin1 in Hrest.
    destruct (refresh_arrives w1 r1 c1 rest ms1 Hrest) as (w2 & Hstep2 & Hm & _).
    exists w2. cbn [run]. rewrite Hstep1, Hstep2. split; [reflexivity | exact Hm].
Qed.

(** The collection changes only when a refresh gets a successful response
    with a readable body: no method call, tick, failed response or response
    to a POST touches it. *)
Theorem collection_changes_only_on_refresh (ev : Event) (w w' : World) :
  step toLocaleDateString ev w = Some w' ->
  messages (this w') <> messages (this w) ->
  exists request field caller,
    ev = Arrives request (Http true (JsonValue field))
    /\ resumed_task ev w = Some (AwaitMessages caller)
    /\ messages (this w') = or_empty field.
Proof.
  intros Hstep Hchanged.
  destruct ev; unfold step in Hstep.
  1-8, 10-11: exfalso; apply Hchanged; clear Hchanged; open_world w; run_method.
  unfold resumed_task.
  destruct (take_task request (inflight (env w))) as [[t rest]|]; [| discriminate].
  apply (inj Some) in Hstep. subst w'.
  destruct t as [caller|].
  - destruct r as [|[] [| |field]];
      try solve [exfalso; apply Hchanged; clear Hchanged; open_world w;
                 destruct caller; run_method].
    exists request, field, caller.
    split; [reflexivity |]. split; [reflexivity |].
    clear Hchanged. open_world w. destruct caller; run_method.
  - exfalso. apply Hchanged. clear Hchanged. open_world w. run_method.
Qed.

(** The conversation identifier changes only in [open], which sets it to
    the offer given, and in [close] and [destroy], which clear it. *)
Theorem offerId_changes_only_on_open_close (ev : Event) (w w' : World) :
  step toLocaleDateString ev w = Some w' ->
  offerId (this w') <> offerId (this w) ->
  (exists offer user title,
      ev = CallOpen offer user title /\ offerId (this w') = Some offer)
  \/ ((ev = CallClose \/ ev = CallDestroy) /\ offerId (this w') = None).
Proof.
  intros Hstep Hchanged.
  destruct ev; unfold step in Hstep.
  4-11: exfalso; apply Hchanged; clear Hchanged.
  - left. exists offer, user, title. split; [reflexivity |].
    clear Hchanged. open_world w. run_method.
  - right. split; [left; reflexivity |].
    apply (inj Some) in Hstep. subst w'.
    open_world w. revert Hchanged. run_method; intros Hc; contradiction.
  - right. split; [right; reflexivity |].
    apply (inj Some) in Hstep. subst w'.
    open_world w. revert Hchanged. run_method; intros Hc; contradiction.
  - open_world w. run_method.
  - open_world w. run_method.
  - open_world w. run_method.
  - open_world w. run_method.
  - open_world w. run_method.
  - destruct (take_task request (inflight (env w))) as [[t rest]|]; [| discriminate].
    apply (inj Some) in Hstep. subst w'.
    open_world w. destruct t as [[| |]|]; run_method.
  - open_world w. run_method.
  - open_world w. run_method.
Qed.

End MoreRefreshing.

Lemma loadMessages_success_witness :
  exists w',
    loadMessages_response plain_date (ok_with [old_message]) polling_world = Ok tt w'
    /\ messages (this w') = [old_message]
    /\ option_map scrolledToBottom (messagesContainer (dom w')) = Some true.
Proof.
  destruct (loadMessages_success plain_date polling_world
              (mkContainer (render_html plain_date 0 alice [plain_message]) true)
              alice [old_message]
              ltac:(vm_compute; reflexivity) ltac:(vm_compute; reflexivity))
    as (w' & Hrun & Hm & Hc & _).
  exists w'. split; [exact Hrun |]. split; [exact Hm |].
  rewrite Hc. reflexivity.
Defined.

Lemma last_response_wins_witness :
  (exists w',
      run plain_date [Arrives 1 (ok_with [old_message]); Arrives 2 (ok_with [plain_message])]
          two_refreshes_world = Some w'
      /\ messages (this w') = [plain_message])
  /\ (exists w',
        run plain_date [Arrives 2 (ok_with [plain_message]); Arrives 1 (ok_with [old_message])]
            two_refreshes_world = Some w'
        /\ messages (this w') = [old_message]).
Proof.
  apply (last_response_wins plain_date two_refreshes_world 1%nat 2%nat FromTick FromTick
           [(2%nat, AwaitMessages FromTick)] [(1%nat, AwaitMessages FromTick)]
           [old_message] [plain_message]).
  - discriminate.
  - vm_compute. reflexivity.
  - vm_compute. reflexivity.
Defined.

Lemma collection_changes_only_on_refresh_witness :
  exists request field caller,
    Arrives 1 (ok_with [old_message]) = Arrives request (Http true (JsonValue field))
    /\ resumed_task (Arrives 1 (ok_with [old_message])) polling_world
       = Some (AwaitMessages caller)
    /\ or_empty field = [old_message].
Proof.
  destruct (collection_changes_only_on_refresh plain_date
              (Arrives 1 (ok_with [old_message])) polling_world
              (after_events [CallOpen 1 (Some alice) None;
                             Arrives 0 (ok_with [plain_message]);
                             Tick 1;
                             Arrives 1 (ok_with [old_message])])
              ltac:(vm_compute; reflexivity)
              ltac:(vm_compute; discriminate))
    as (request & field & caller & Hev & Htask & Hm).
  exists request, field, caller. split; [exact Hev |]. split; [exact Htask |].
  rewrite <- Hm. vm_compute. reflexivity.
Defined.

Lemma offerId_changes_only_on_open_close_witness :
  (exists offer user title,
      CallOpen 1 (Some alice) None = CallOpen offer user title
      /\ offerId (this (after_events [CallOpen 1 (Some alice) None])) = Some offer)
  \/ ((CallOpen 1 (Some alice) None = CallClose \/ CallOpen 1 (Some alice) None = CallDestroy)
      /\ offerId (this (after_events [CallOpen 1 (Some alice) None])) = None).
Proof.
  apply (offerId_changes_only_on_open_close plain_date
           (CallOpen 1 (Some alice) None) fresh_widget
           (after_events [CallOpen 1 (Some alice) None])).
  - vm_compute. reflexivity.
  - vm_compute. discriminate.
Defined.

(** ** Missing elements and exceptions *)

Section MoreRobustness.

Variable toLocaleDateString : Z -> jsstring.

Lemma step_no_uncaught (ev : Event) (w w' : World) :
  controls_present w ->
  step toLocaleDateString ev w = Some w' ->
  uncaught (env w') = uncaught (env w) /\ controls_present w'.
Proof.
  unfold controls_present.
  intros ([display Hmodal] & [el Hinput] & [b Hbutton]) Hstep.
  destruct ev; unfold step in Hstep.
  1-8, 10-11: open_world w; subst; destruct el as [v dis]; run_method;
    repeat split; eauto.
  destruct (take_task request (inflight (env w))) as [[t rest]|]; [| discriminate].
  apply (inj Some) in Hstep. subst w'.
  open_world w. subst. destruct el as [v dis].
  destruct t as [[| |]|]; run_method; repeat split; eauto.
Qed.

(** On a page where the modal, the text input and the send button exist,
    no event of the event loop ends in an uncaught exception: whatever the
    sequence of calls of [open], [close], [destroy], [sendMessage],
    [startPolling] and [stopPolling], of drafts typed, ticks and responses
    (failed ones included), no exception reaches the browser and the
    elements stay in place.  A direct call of [renderMessages] is not among
    these events (see [renderMessages_direct_call]). *)
Theorem no_uncaught_exception (evs : list Event) (w w' : World) :
  controls_present w ->
  run toLocaleDateString evs w = Some w' ->
  uncaught (env w') = uncaught (env w) /\ controls_present w'.
Proof.
  revert w. induction evs as [|ev evs IH]; intros w Hpresent Hrun; cbn [run] in Hrun.
  - apply (inj Some) in Hrun. subst w'. split; [reflexivity | exact Hpresent].
  - destruct (step toLocaleDateString ev w) as [w1|] eqn:Hstep; [| discriminate].
    destruct (step_no_uncaught ev w w1 Hpresent Hstep) as [Hu Hp].
    destruct (IH w1 Hp Hrun) as [Hu' Hp'].
    split; [congruence | exact Hp'].
Qed.

(** [renderMessages] called on its own, outside [loadMessages], throws when
    there are messages to show and no current user, before it writes
    anything. *)
Lemma renderMessages_direct_call (w : World) (c : ContainerEl) (m : Message) (ms : list Message) :
  messagesContainer (dom w) = Some c ->
  messages (this w) = m :: ms ->
  currentUser (this w) = None ->
  renderMessages toLocaleDateString w = Throw w.
Proof. intros Hc Hm Hu. open_world w. subst. reflexivity. Qed.

(** Without the modal the widget cannot be opened or closed.  [open] throws
    after it has stored the offer and the user, and sends nothing; [close]
    throws at once, so it neither stops a timer nor clears the
    conversation; [destroy] stops the timer and then throws. *)
Theorem modal_missing_methods_throw
    (w : World) (offer : Z) (user : option User) (title : option jsstring) :
  modal (dom w) = None ->
  (exists w',
      open offer user title w = Throw w'
      /\ offerId (this w') = Some offer
      /\ currentUser (this w') = user
      /\ env w' = env w)
  /\ close w = Throw w
  /\ (exists w',
        destroy w = Throw w'
        /\ stopPolling w = Ok tt w').
Proof.
  intros Hmodal. open_world w. subst.
  split; [| split].
  - destruct chatTitle0; eexists; (split; [reflexivity |]); exec; auto.
  - reflexivity.
  - destruct poll0 as [[|h]|]; eexists; split; reflexivity.
Qed.

(** With the modal in place [destroy] does exactly what [close] does. *)
Theorem destroy_is_close (w : World) (display : jsstring) :
  modal (dom w) = Some display ->
  destroy w = close w.
Proof.
  intros Hmodal. open_world w. subst.
  destruct poll0 as [[|h]|]; destruct messageInput0; reflexivity.
Qed.

(** One turn of the event loop sends at most one request, and only to the
    configured base URL: the message list of a conversation, or a new
    message with a non-empty text.  The configuration itself never
    changes. *)
Theorem step_requests_to_endpoints (ev : Event) (w w' : World) :
  step toLocaleDateString ev w = Some w' ->
  options (this w') = options (this w)
  /\ exists sent,
       network (env w') = network (env w) ++ sent
       /\ (length sent <= 1)%nat
       /\ Forall (to_endpoint (apiUrl (options (this w)))) sent.
Proof.
  assert (Hnone : forall (net : list Request) (base : jsstring),
             exists sent, net = net ++ sent /\ (length sent <= 1)%nat
                          /\ Forall (to_endpoint base) sent).
  { intros. exists []. rewrite app_nil_r. repeat split; [cbn; lia | constructor]. }
  assert (Hget : forall (net : list Request) (base : jsstring) (offer : option Z),
             exists sent,
               net ++ [GET (base ++ js "/messages?offer_id=" ++ offer_param offer)]
               = net ++ sent
               /\ (length sent <= 1)%nat
               /\ Forall (to_endpoint base) sent).
  { intros. eexists. split; [reflexivity |]. split; [cbn; lia |].
    repeat constructor. exists offer. reflexivity. }
  assert (Hpost : forall (net : list Request) (base : jsstring) (offer : option Z)
                         (c : N) (t : jsstring),
             exists sent,
               net ++ [POST (base ++ js "/messages") offer (c :: t)] = net ++ sent
               /\ (length sent <= 1)%nat
               /\ Forall (to_endpoint base) sent).
  { intros. eexists. split; [reflexivity |]. split; [cbn; lia |].
    repeat constructor. discriminate. }
  intros Hstep. destruct ev; unfold step in Hstep.
  1-6: apply (inj Some) in Hstep; subst w'; split_world w; branch; split; auto.
  - split_world w. exec. destruct messageInput0 as [[v []]|]; try discriminate.
    apply (inj Some) in Hstep. subst w'. exec. split; auto.
  - destruct (interval_active h w); [| discriminate].
    apply (inj Some) in Hstep. subst w'. split_world w. branch. split; auto.
  - destruct (take_task request (inflight (env w))) as [[t rest]|]; [| discriminate].
    apply (inj Some) in Hstep. subst w'.
    split_world w. destruct t as [[| |]|]; branch; split; auto.
  - split_world w. exec. destruct (clock0 <=? t); [| discriminate].
    apply (inj Some) in Hstep. subst w'. exec. split; auto.
  - split_world w. exec. destruct toasts0; [discriminate |].
    apply (inj Some) in Hstep. subst w'. exec. split; auto.
Qed.

End MoreRobustness.

Lemma no_uncaught_exception_witness :
  uncaught (env (after_events [CallOpen 1 None None;
                               Arrives 0 (ok_with [plain_message]);
                               CallSendMessage;
                               Tick 1;
                               Arrives 1 NetworkError;
                               CallClose])) = 0%nat.
Proof.
  destruct (no_uncaught_exception plain_date
              [CallOpen 1 None None;
               Arrives 0 (ok_with [plain_message]);
               CallSendMessage;
               Tick 1;
               Arrives 1 NetworkError;
               CallClose]
              fresh_widget
              (after_events [CallOpen 1 None None;
                             Arrives 0 (ok_with [plain_message]);
                             CallSendMessage;
                             Tick 1;
                             Arrives 1 NetworkError;
                             CallClose]))
    as [Hu _].
  - repeat split; eexists; reflexivity.
  - vm_compute. reflexivity.
  - rewrite Hu. reflexivity.
Defined.

Lemma modal_missing_methods_throw_witness :
  (exists w',
      open 1 (Some alice) None bare_widget = Throw w'
      /\ offerId (this w') = Some 1
      /\ network (env w') = [])
  /\ close bare_widget = Throw bare_widget.
Proof.
  destruct (modal_missing_methods_throw bare_widget 1 (Some alice) None eq_refl)
    as ((w' & Hopen & Hoffer & _ & Henv) & Hclose & _).
  split; [| exact Hclose].
  exists w'. split; [exact Hopen |]. split; [exact Hoffer |].
  rewrite Henv. reflexivity.
Defined.

Lemma destroy_is_close_witness :
  destroy polling_world = close polling_world.
Proof.
  apply (destroy_is_close polling_world (js "flex")).
  vm_compute. reflexivity.
Defined.

Lemma step_requests_to_endpoints_witness :
  exists sent,
    network (env sending_world) = network (env drafting_world) ++ sent
    /\ (length sent <= 1)%nat
    /\ Forall (to_endpoint (js "http://localhost:3000/api")) sent.
Proof.
  destruct (step_requests_to_endpoints plain_date CallSendMessage
              drafting_world sending_world ltac:(vm_compute; reflexivity))
    as (_ & sent & Hnet & Hlen & Hall).
  exists sent. split; [exact Hnet |]. split; [exact Hlen |]. exact Hall.
Defined.

(** * Properties of the map display *)

Module MapDisplayFacts.

Import MapDisplay.

(** ** The [Map] operations *)

Lemma Map_get_None {V} (k : Z) (m : list (Z * V)) :
  Map_get k m = None <-> ~ In k (map fst m).
Proof.
  unfold Map_get. induction m as [|[k' v'] m IH]; cbn.
  - split; [intros _ [] | reflexivity].
  - destruct (Z.eqb_spec k' k) as [->|Hne].
    + split; [discriminate | intros H; destruct H; left; reflexivity].
    + rewrite IH. split.
      * intros Hm [Heq|Hin]; [congruence | exact (Hm Hin)].
      * intros Hm Hin. apply Hm. right. exact Hin.
Qed.

Lemma Map_get_Some {V} (k : Z) (m : list (Z * V)) (v : V) :
  Map_get k m = Some v -> In (k, v) m.
Proof.
  unfold Map_get. induction m as [|[k' v'] m IH]; cbn; [discriminate |].
  destruct (Z.eqb_spec k' k) as [->|Hne].
  - cbn. intros Heq. injection Heq as ->. left. reflexivity.
  - intros Hm. right. exact (IH Hm).
Qed.

Lemma Map_set_new {V} (k : Z) (v : V) (m : list (Z * V)) :
  Map_get k m = None -> Map_set k v m = m ++ [(k, v)].
Proof.
  unfold Map_get. induction m as [|[k' v'] m IH]; cbn; [reflexivity |].
  destruct (Z.eqb_spec k' k) as [->|Hne]; [discriminate |].
  intros Hm. rewrite (IH Hm). reflexivity.
Qed.

Lemma Map_set_keys {V} (k : Z) (v old : V) (m : list (Z * V)) :
  Map_get k m = Some old -> map fst (Map_set k v m) = map fst m.
Proof.
  unfold Map_get. induction m as [|[k' v'] m IH]; cbn; [discriminate |].
  destruct (Z.eqb_spec k' k) as [->|Hne]; [reflexivity |].
  intros Hm. cbn. rewrite (IH Hm). reflexivity.
Qed.

Lemma Map_delete_absent {V} (k : Z) (m : list (Z * V)) :
  ~ In k (map fst m) -> Map_delete k m = m.
Proof.
  unfold Map_delete. induction m as [|[k' v'] m IH]; cbn; [reflexivity |].
  intros Hnot.
  destruct (Z.eqb_spec k' k) as [->|Hne].
  - destruct Hnot. left. reflexivity.
  - cbn. f_equal. apply IH.
    intros Hin. apply Hnot. right. exact Hin.
Qed.

Lemma Map_delete_keys {V} (k : Z) (m : list (Z * V)) :
  map fst (Map_delete k m) = List.filter (fun k' => negb (k' =? k)) (map fst m).
Proof.
  unfold Map_delete. induction m as [|[k' v'] m IH]; cbn; [reflexivity |].
  destruct (k' =? k); cbn; [exact IH | f_equal; exact IH].
Qed.

Lemma Map_delete_NoDup {V} (k : Z) (m : list (Z * V)) :
  NoDup (map fst m) -> NoDup (map fst (Map_delete k m)).
Proof.
  intros Hnd. apply NoDup_ListNoDup. rewrite Map_delete_keys.
  apply List.NoDup_filter. apply NoDup_ListNoDup. exact Hnd.
Qed.

Lemma filter_Forall {A} (P : A -> Prop) (f : A -> bool) (l : list A) :
  Forall P l -> Forall P (List.filter f l).
Proof.
  induction 1 as [|x l Hx _ IH]; cbn; [constructor |].
  destruct (f x); [constructor; assumption | exact IH].
Qed.

Lemma filter_keep_all {A} (f : A -> bool) (l : list A) :
  Forall (fun x => f x = true) l -> List.filter f l = l.
Proof.
  induction 1 as [|x l Hx _ IH]; cbn; [reflexivity |].
  rewrite Hx, IH. reflexivity.
Qed.

Lemma filter_Permutation {A} (f : A -> bool) (l l' : list A) :
  l ≡ₚ l' -> List.filter f l ≡ₚ List.filter f l'.
Proof.
  induction 1 as [| x l l' _ IH | x y l | l l' l'' _ IH1 _ IH2]; cbn.
  - reflexivity.
  - destruct (f x); [constructor; exact IH | exact IH].
  - destruct (f x); destruct (f y); try reflexivity. constructor.
  - etransitivity; eassumption.
Qed.

(** The values of a [Map] with one key taken out, and with one value
    replaced. *)
Lemma Map_values_delete (k : Z) (old : Marker) (m : list (Z * Marker)) :
  NoDup (map fst m) ->
  Map_get k m = Some old ->
  map snd m ≡ₚ old :: map snd (Map_delete k m).
Proof.
  unfold Map_get, Map_delete.
  induction m as [|[k' v'] m IH]; cbn; [discriminate |].
  intros Hnd Hget. apply NoDup_cons in Hnd as [Hk' Hnd'].
  destruct (Z.eqb_spec k' k) as [->|Hne]; cbn in *.
  - injection Hget as ->.
    change (List.filter (fun p : Z * Marker => negb (fst p =? k)) m) with (Map_delete k m).
    rewrite Map_delete_absent; [reflexivity |].
    rewrite <- list_elem_of_In. exact Hk'.
  - rewrite (IH Hnd' Hget) at 1. apply perm_swap.
Qed.

Lemma Map_values_set (k : Z) (v old : Marker) (m : list (Z * Marker)) :
  NoDup (map fst m) ->
  Map_get k m = Some old ->
  map snd (Map_set k v m) ≡ₚ v :: map snd (Map_delete k m).
Proof.
  unfold Map_get, Map_delete.
  induction m as [|[k' v'] m IH]; cbn; [discriminate |].
  intros Hnd Hget. apply NoDup_cons in Hnd as [Hk' Hnd'].
  destruct (Z.eqb_spec k' k) as [->|Hne]; cbn in *.
  - change (List.filter (fun p : Z * Marker => negb (fst p =? k)) m) with (Map_delete k m).
    rewrite Map_delete_absent; [reflexivity |].
    rewrite <- list_elem_of_In. exact Hk'.
  - rewrite (IH Hnd' Hget). apply perm_swap.
Qed.

(** Taking a layer out of a list in which identities are unique. *)
Lemma remove_layer_Permutation (old : Marker) (l l' : list Marker) :
  NoDup (map ref l) ->
  l ≡ₚ old :: l' ->
  List.filter (fun x => negb (Nat.eqb (ref x) (ref old))) l ≡ₚ l'.
Proof.
  intros Hnd Hperm.
  rewrite (filter_Permutation _ _ _ Hperm). cbn.
  rewrite Nat.eqb_refl. cbn.
  rewrite filter_keep_all; [reflexivity |].
  assert (Hnd' : NoDup (map ref (old :: l'))) by (rewrite <- Hperm; exact Hnd).
  cbn in Hnd'. apply NoDup_cons in Hnd' as [Hold _].
  apply List.Forall_forall. intros x Hx.
  apply negb_true_iff, Nat.eqb_neq. intros Heq.
  apply Hold. rewrite <- Heq. apply list_elem_of_In, in_map. exact Hx.
Qed.

Lemma keys_in_step (z : Z) (m : list (Z * Marker)) (vols : list Volunteer) :
  map key_of m = map id vols ->
  existsb (has_id z) vols
  = match Map_get z m with Some _ => true | None => false end.
Proof.
  unfold Map_get. revert vols.
  induction m as [|[k v] m IH]; intros [|vo vols]; cbn; try discriminate; [reflexivity |].
  intros Heq. injection Heq as Hk Hrest.
  unfold has_id at 1. rewrite <- Hk. cbn.
  destruct (k =? z); cbn; [reflexivity | exact (IH vols Hrest)].
Qed.

Lemma keys_after_delete (z : Z) (m : list (Z * Marker)) (vols : list Volunteer) :
  map key_of m = map id vols ->
  map key_of (Map_delete z m)
  = map id (List.filter (fun v => negb (has_id z v)) vols).
Proof.
  unfold Map_delete. revert vols.
  induction m as [|[k v] m IH]; intros [|vo vols]; cbn; try discriminate; [reflexivity |].
  intros Heq. injection Heq as Hk Hrest.
  unfold has_id at 1. rewrite <- Hk. cbn.
  destruct (k =? z); cbn; [exact (IH vols Hrest) |].
  f_equal; [exact Hk | exact (IH vols Hrest)].
Qed.

Lemma relocate_ids (z : Z) (la lo : number) (vols : list Volunteer) :
  map id (relocate z la lo vols) = map id vols.
Proof.
  induction vols as [|v vols IH]; cbn; [reflexivity |].
  destruct (has_id z v); cbn; [reflexivity | f_equal; exact IH].
Qed.

Lemma find_has_id (z : Z) (vols : list Volunteer) (v : Volunteer) :
  find (has_id z) vols = Some v -> id v = Some z.
Proof.
  intros Hfind. apply find_some in Hfind as [_ Hid].
  unfold has_id in Hid. destruct (id v) as [z'|]; [| discriminate].
  apply Z.eqb_eq in Hid. subst. reflexivity.
Qed.

Lemma Map_set_key_of (k : Z) (v old : Marker) (m : list (Z * Marker)) :
  Map_get k m = Some old -> map key_of (Map_set k v m) = map key_of m.
Proof.
  unfold Map_get. induction m as [|[k' v'] m IH]; cbn; [discriminate |].
  destruct (Z.eqb_spec k' k) as [->|Hne]; [reflexivity |].
  intros Hm. cbn. rewrite (IH Hm). reflexivity.
Qed.

Lemma Map_set_Forall (P : Z * Marker -> Prop) (k : Z) (v : Marker) (m : list (Z * Marker)) :
  P (k, v) -> Forall P m -> Forall P (Map_set k v m).
Proof.
  intros Hnew. induction 1 as [|[k' v'] m Hx Hm IH]; cbn.
  - constructor; [exact Hnew | constructor].
  - destruct (k' =? k); constructor; assumption.
Qed.

Lemma Map_set_get {V} (k : Z) (v : V) (m : list (Z * V)) :
  Map_get k (Map_set k v m) = Some v.
Proof.
  unfold Map_get. induction m as [|[k' v'] m IH]; cbn.
  - rewrite Z.eqb_refl. reflexivity.
  - destruct (Z.eqb_spec k' k) as [->|Hne]; cbn.
    + rewrite Z.eqb_refl. reflexivity.
    + apply Z.eqb_neq in Hne. rewrite Hne. exact IH.
Qed.

Lemma Map_set_length {V} (k : Z) (v old : V) (m : list (Z * V)) :
  Map_get k m = Some old -> length (Map_set k v m) = length m.
Proof.
  intros Hget. rewrite <- (length_map fst (Map_set k v m)), (Map_set_keys k v old m Hget).
  apply length_map.
Qed.

Lemma NoDup_map_filter {A B} (g : A -> B) (f : A -> bool) (l : list A) :
  NoDup (map g l) -> NoDup (map g (List.filter f l)).
Proof.
  induction l as [|x l IH]; cbn; [intros; constructor |].
  intros Hnd. apply NoDup_cons in Hnd as [Hx Hnd].
  destruct (f x); cbn; [| exact (IH Hnd)].
  apply NoDup_cons. split; [| exact (IH Hnd)].
  intros Hin. apply Hx.
  apply list_elem_of_In, in_map_iff in Hin as (y & Hy & Hyin).
  apply filter_In in Hyin as [Hyin _].
  apply list_elem_of_In, in_map_iff. exists y. split; assumption.
Qed.

(** A marker with a fresh stamp joins layers whose stamps are older. *)
Lemma fresh_layer (l : list Marker) (mk : Marker) (st : nat) :
  NoDup (map ref l) ->
  Forall (fun x => (ref x < st)%nat) l ->
  ref mk = st ->
  NoDup (map ref (l ++ [mk])) /\ Forall (fun x => (ref x < S st)%nat) (l ++ [mk]).
Proof.
  intros Hnd Hlt Href. split.
  - rewrite map_app. apply NoDup_app. split; [exact Hnd |]. split.
    + intros r Hr Hr'. cbn in Hr'. apply list_elem_of_In in Hr' as [<-|[]].
      apply list_elem_of_In, in_map_iff in Hr as (x & Hx & Hxin).
      rewrite List.Forall_forall in Hlt. specialize (Hlt x Hxin). lia.
    + cbn. apply NoDup_singleton.
  - apply Forall_app. split.
    + eapply Forall_impl; [exact Hlt |]. cbn. intros x Hx. lia.
    + constructor; [lia | constructor].
Qed.

Lemma checked_Some (v : Volunteer) (z : Z) (la lo : number) :
  checked v = Some (z, la, lo) ->
  id v = Some z /\ z <> 0 /\ latitude v = Some la /\ longitude v = Some lo.
Proof.
  unfold checked.
  destruct (id v) as [z'|]; [| discriminate].
  destruct (latitude v) as [la'|]; [| discriminate].
  destruct (longitude v) as [lo'|]; [| discriminate].
  destruct (Z.eqb_spec z' 0); [discriminate |].
  intros Heq. injection Heq as -> -> ->. auto.
Qed.

Section Bookkeeping.

Variable toLowerCase : jsstring -> jsstring.

Lemma consistent_no_map (s : State) :
  consistent s -> leafletMap s = None -> markers s = [] /\ volunteers s = [].
Proof.
  intros (Hk & _ & _ & Hl) Hnone. rewrite Hnone in Hl.
  split; [exact Hl |]. rewrite Hl in Hk. cbn in Hk.
  destruct (volunteers s); [reflexivity | discriminate].
Qed.

Lemma addVolunteerMarker_consistent (v : Volunteer) (s : State) :
  consistent s -> consistent (state_of (addVolunteerMarker toLowerCase v s)).
Proof.
  intros Hs. pose proof Hs as (Hk & Hnd & Hnz & Hl).
  destruct s as [cid lm mks vols opts st con]. cbn in Hk, Hnd, Hnz, Hl.
  unfold addVolunteerMarker. cbn.
  destruct (checked v) as [[[z la] lo]|] eqn:Hc; [| exact Hs].
  apply checked_Some in Hc as (Hid & Hz & _ & _).
  destruct (Map_get z mks) as [old|] eqn:Hget.
  - destruct lm as [m|]; [| subst mks; discriminate]. cbn.
    rewrite (keys_in_step z mks vols Hk), Hget. cbn.
    destruct Hl as (Hperm & Hrefs & Hlt).
    pose proof (fresh_layer
                  (List.filter (fun x => negb (Nat.eqb (ref x) (ref old))) (layers m))
                  (mkMarker st (la, lo) (generatePopupContent toLowerCase v)) st
                  (NoDup_map_filter _ _ _ Hrefs) (filter_Forall _ _ _ Hlt) eq_refl)
      as [Hrefs' Hlt'].
    unfold consistent. cbn.
    split; [rewrite (Map_set_key_of z _ old mks Hget); exact Hk |].
    split; [rewrite (Map_set_keys z _ old mks Hget); exact Hnd |].
    split; [apply Map_set_Forall; [exact Hz | exact Hnz] |].
    split; [| split; assumption].
    rewrite (Map_values_set z _ old mks Hnd Hget).
    rewrite <- Permutation_cons_append. constructor.
    symmetry. apply remove_layer_Permutation; [exact Hrefs |].
    rewrite <- Hperm. apply Map_values_delete; assumption.
  - destruct lm as [m|]; [| exact Hs]. cbn.
    rewrite (keys_in_step z mks vols Hk), Hget. cbn.
    destruct Hl as (Hperm & Hrefs & Hlt).
    pose proof (fresh_layer (layers m)
                  (mkMarker st (la, lo) (generatePopupContent toLowerCase v)) st
                  Hrefs Hlt eq_refl) as [Hrefs' Hlt'].
    rewrite (Map_set_new z _ mks Hget).
    unfold consistent. cbn.
    split; [rewrite !map_app; cbn; rewrite Hk, Hid; reflexivity |].
    split.
    { rewrite map_app. apply NoDup_app. split; [exact Hnd |]. split.
      - intros k Hk1 Hk2. cbn in Hk2. apply list_elem_of_In in Hk2 as [<-|[]].
        apply Map_get_None in Hget. apply Hget, list_elem_of_In. exact Hk1.
      - cbn. apply NoDup_singleton. }
    split; [apply Forall_app; split; [exact Hnz | constructor; [exact Hz | constructor]] |].
    split; [| split; assumption].
    rewrite map_app. cbn. rewrite Hperm. reflexivity.
Qed.

Lemma fitMapToMarkers_consistent (s : State) :
  consistent s -> consistent (state_of (fitMapToMarkers s)).
Proof.
  intros Hs. unfold fitMapToMarkers.
  destruct (markers s) as [|p ps] eqn:Hm; [exact Hs |].
  destruct (leafletMap s) as [m|] eqn:Hl; [| exact Hs].
  destruct Hs as (Hk & Hnd & Hnz & Hlay). rewrite Hl in Hlay.
  destruct s as [cid lm mks vols opts st con]. cbn in *. subst.
  unfold consistent. cbn. auto.
Qed.

Lemma addEach_consistent (vs : list Volunteer) (s : State) :
  consistent s -> consistent (state_of (addEach toLowerCase vs s)).
Proof.
  revert s. induction vs as [|v vs IH]; intros s Hs; cbn; [exact Hs |].
  pose proof (addVolunteerMarker_consistent v s Hs) as Hs'.
  destruct (addVolunteerMarker toLowerCase v s) as [s'|s']; cbn in Hs'.
  - exact (IH s' Hs').
  - exact Hs'.
Qed.

Lemma addVolunteers_consistent (vs : list Volunteer) (s : State) :
  consistent s -> consistent (state_of (addVolunteers toLowerCase vs s)).
Proof.
  intros Hs. unfold addVolunteers.
  pose proof (addEach_consistent vs s Hs) as Hs'.
  destruct (addEach toLowerCase vs s) as [s'|s']; cbn in Hs'.
  - exact (fitMapToMarkers_consistent s' Hs').
  - exact Hs'.
Qed.

Lemma removeVolunteer_consistent (z : Z) (s : State) :
  consistent s -> consistent (state_of (removeVolunteer z s)).
Proof.
  intros Hs. pose proof Hs as (Hk & Hnd & Hnz & Hl).
  destruct s as [cid lm mks vols opts st con]. cbn in Hk, Hnd, Hnz, Hl.
  unfold removeVolunteer. cbn.
  destruct (Map_get z mks) as [old|] eqn:Hget; [| exact Hs].
  destruct lm as [m|]; [| exact Hs]. cbn.
  destruct Hl as (Hperm & Hrefs & Hlt).
  unfold consistent. cbn.
  split; [apply keys_after_delete; exact Hk |].
  split; [apply Map_delete_NoDup; exact Hnd |].
  split; [apply filter_Forall; exact Hnz |].
  split; [| split; [apply NoDup_map_filter; exact Hrefs | apply filter_Forall; exact Hlt]].
  symmetry. apply remove_layer_Permutation; [exact Hrefs |].
  rewrite <- Hperm. apply Map_values_delete; assumption.
Qed.

(** Removing every marker of the [Map] empties the layers they were. *)
Lemma remove_all_layers (ps : list (Z * Marker)) (m : LeafletMap) :
  (forall x, In x (layers m) -> exists p, In p ps /\ ref (snd p) = ref x) ->
  layers (fold_left (fun acc p => removeLayer (snd p) acc) ps m) = [].
Proof.
  revert m. induction ps as [|p ps IH]; intros m Hall; cbn.
  - destruct (layers m) as [|x l]; [reflexivity |].
    destruct (Hall x (or_introl eq_refl)) as (p & [] & _).
  - apply IH. cbn. intros x Hx.
    apply filter_In in Hx as [Hx Hne].
    apply negb_true_iff, Nat.eqb_neq in Hne.
    destruct (Hall x Hx) as (p' & [<-|Hp'] & Href).
    + congruence.
    + exists p'. split; assumption.
Qed.

Lemma clearMap_consistent (s : State) :
  consistent s -> consistent (state_of (clearMap s)).
Proof.
  intros Hs. pose proof Hs as (Hk & Hnd & Hnz & Hl).
  destruct s as [cid lm mks vols opts st con]. cbn in Hk, Hnd, Hnz, Hl.
  unfold clearMap. cbn.
  destruct mks as [|p ps].
  - cbn in Hk. destruct vols; [exact Hs | discriminate].
  - destruct lm as [m|]; [| exact Hs]. cbn.
    destruct Hl as (Hperm & Hrefs & Hlt).
    unfold consistent. cbn.
    change (fold_left (fun acc p0 => removeLayer (snd p0) acc) ps (removeLayer (snd p) m))
      with (fold_left (fun acc p0 => removeLayer (snd p0) acc) (p :: ps) m).
    rewrite remove_all_layers.
    + repeat split; constructor.
    + intros x Hx.
      assert (Hin : In x (map snd (p :: ps)))
        by (apply list_elem_of_In; rewrite Hperm; apply list_elem_of_In; exact Hx).
      apply in_map_iff in Hin as (q & Hq & Hqin).
      exists q. split; [exact Hqin | rewrite Hq; reflexivity].
Qed.

Lemma updateVolunteerLocation_consistent (z : Z) (la lo : number) (s : State) :
  consistent s -> consistent (state_of (updateVolunteerLocation toLowerCase z la lo s)).
Proof.
  intros Hs. unfold updateVolunteerLocation.
  destruct (find (has_id z) (volunteers s)) as [v|]; [| exact Hs].
  apply addVolunteerMarker_consistent.
  destruct Hs as (Hk & Hnd & Hnz & Hl).
  destruct s as [cid lm mks vols opts st con]. cbn in *.
  unfold consistent. cbn. rewrite relocate_ids. auto.
Qed.

Lemma setView_consistent (c : number * number) (z : option number) (s : State) :
  consistent s -> consistent (setView c z s).
Proof.
  intros Hs. unfold setView.
  destruct (leafletMap s) as [m|] eqn:Hl; [| exact Hs].
  destruct Hs as (Hk & Hnd & Hnz & Hlay). rewrite Hl in Hlay.
  destruct s as [cid lm mks vols opts st con]. cbn in *. subst.
  unfold consistent. cbn. auto.
Qed.

Lemma destroy_consistent (s : State) :
  consistent s -> consistent (destroy s).
Proof.
  intros Hs. unfold destroy.
  destruct (leafletMap s) as [m|]; [| exact Hs].
  unfold consistent. cbn. repeat split; constructor.
Qed.

Lemma call_consistent (c : Call) (s : State) :
  consistent s -> consistent (state_of (call toLowerCase c s)).
Proof.
  intros Hs. destruct c; cbn [call state_of].
  - apply addVolunteerMarker_consistent, Hs.
  - apply addVolunteers_consistent, Hs.
  - apply fitMapToMarkers_consistent, Hs.
  - apply removeVolunteer_consistent, Hs.
  - apply clearMap_consistent, Hs.
  - apply updateVolunteerLocation_consistent, Hs.
  - apply setView_consistent, Hs.
  - apply destroy_consistent, Hs.
Qed.

Lemma construct_consistent (container : jsstring) (found : bool) (o : UserOptions) :
  consistent (construct container found o).
Proof.
  unfold construct, consistent. destruct found; cbn; repeat split; constructor.
Qed.

Lemma reachable_consistent (s : State) :
  reachable toLowerCase s -> consistent s.
Proof.
  induction 1 as [container found o | c s _ IH].
  - apply construct_consistent.
  - apply call_consistent, IH.
Qed.

End Bookkeeping.


Lemma Map_get_app_new {V} (k : Z) (v : V) (m : list (Z * V)) :
  Map_get k m = None -> Map_get k (m ++ [(k, v)]) = Some v.
Proof.
  intros Hget. rewrite <- (Map_set_new k v m Hget). apply Map_set_get.
Qed.

Lemma Map_delete_app_new {V} (k : Z) (v : V) (m : list (Z * V)) :
  Map_get k m = None -> Map_delete k (m ++ [(k, v)]) = m.
Proof.
  intros Hget. unfold Map_delete. rewrite List.filter_app. cbn.
  rewrite Z.eqb_refl. cbn. rewrite app_nil_r.
  apply Map_delete_absent, Map_get_None, Hget.
Qed.

Lemma no_volunteer_with_id (z : Z) (vols : list Volunteer) :
  existsb (has_id z) vols = false ->
  List.filter (fun v => negb (has_id z v)) vols = vols.
Proof.
  induction vols as [|v vols IH]; cbn; [reflexivity |].
  intros Hex. apply orb_false_iff in Hex as [Hv Hrest].
  rewrite Hv. cbn. rewrite (IH Hrest). reflexivity.
Qed.

#[local] Arguments generatePopupContent : simpl never.
#[local] Arguments Map_delete : simpl never.

Section MapClaims.

Variable toLowerCase : jsstring -> jsstring.

(** The marker [Map] and the volunteers array always describe the same
    volunteers: the keys of the [Map] are the ids of the array, in the same
    order, without a repetition and never zero or undefined; so the marker
    count is the number of volunteers [getVolunteers] returns. *)
Theorem markers_match_volunteers (s : State) :
  reachable toLowerCase s ->
  map key_of (markers s) = map id (getVolunteers s)
  /\ getMarkerCount s = length (getVolunteers s)
  /\ NoDup (map id (getVolunteers s))
  /\ Forall (fun v => exists z, id v = Some z /\ z <> 0) (getVolunteers s).
Proof.
  intros Hreach. destruct (reachable_consistent toLowerCase s Hreach) as (Hk & Hnd & Hnz & _).
  unfold getVolunteers, getMarkerCount.
  split; [exact Hk |].
  split; [rewrite <- (length_map key_of), Hk; apply length_map |].
  split.
  - rewrite <- Hk. unfold key_of.
    change (map (fun p : Z * Marker => Some (fst p)) (markers s))
      with (map (fun p : Z * Marker => Some (fst p)) (markers s)).
    rewrite <- (map_map fst Some). apply NoDup_fmap_2; [| exact Hnd].
    intros a b Hab. injection Hab as ->. reflexivity.
  - clear Hnd. revert Hk Hnz. generalize (volunteers s).
    induction (markers s) as [|[k mk] m IH]; intros [|v vols]; cbn; try discriminate.
    + constructor.
    + intros Heq Hnz. injection Heq as Hid Hrest.
      apply Forall_cons in Hnz as [Hk0 Hnz].
      constructor; [exists k; split; [symmetry; exact Hid | exact Hk0] |].
      exact (IH vols Hrest Hnz).
Qed.

(** The markers on the Leaflet map are exactly the markers the object keeps
    in its [Map], each of them once; and an object without a Leaflet map
    keeps no marker and no volunteer. *)
Theorem layers_match_markers (s : State) :
  reachable toLowerCase s ->
  match leafletMap s with
  | Some m =>
      map snd (markers s) ≡ₚ layers m
      /\ length (layers m) = getMarkerCount s
      /\ NoDup (map ref (layers m))
  | None => getMarkerCount s = 0%nat /\ getVolunteers s = []
  end.
Proof.
  intros Hreach. pose proof (reachable_consistent toLowerCase s Hreach) as Hs.
  destruct (leafletMap s) as [m|] eqn:Hl.
  - destruct Hs as (_ & _ & _ & Hlay). rewrite Hl in Hlay.
    destruct Hlay as (Hperm & Hrefs & _).
    split; [exact Hperm |]. split; [| exact Hrefs].
    unfold getMarkerCount. rewrite <- Hperm. apply length_map.
  - destruct (consistent_no_map s Hs Hl) as [Hm Hv].
    unfold getMarkerCount, getVolunteers. rewrite Hm, Hv. split; reflexivity.
Qed.

Lemma addVolunteerMarker_with_map (v : Volunteer) (s : State) (m : LeafletMap) :
  leafletMap s = Some m ->
  exists s' m', addVolunteerMarker toLowerCase v s = Done s' /\ leafletMap s' = Some m'.
Proof.
  intros Hl. destruct s as [cid lm mks vols opts st con]. cbn in Hl. subst lm.
  unfold addVolunteerMarker. cbn.
  destruct (checked v) as [[[z la] lo]|]; [| eexists; eexists; split; reflexivity].
  destruct (Map_get z mks); cbn;
    match goal with |- context [existsb ?f ?l] => destruct (existsb f l) end;
    eexists; eexists; split; reflexivity.
Qed.

Lemma addEach_with_map (vs : list Volunteer) (s : State) (m : LeafletMap) :
  leafletMap s = Some m ->
  exists s' m', addEach toLowerCase vs s = Done s' /\ leafletMap s' = Some m'.
Proof.
  revert s m. induction vs as [|v vs IH]; intros s m Hl; cbn.
  - exists s, m. split; [reflexivity | exact Hl].
  - destruct (addVolunteerMarker_with_map v s m Hl) as (s1 & m1 & -> & Hl1).
    exact (IH s1 m1 Hl1).
Qed.

(** While the object has its Leaflet map no method throws, and only
    [destroy] takes the map away. *)
Theorem no_throw_with_map (c : Call) (s : State) (m : LeafletMap) :
  leafletMap s = Some m ->
  exists s',
    call toLowerCase c s = Done s'
    /\ (c <> CallDestroy -> exists m', leafletMap s' = Some m').
Proof.
  intros Hl. destruct c; cbn [call].
  - destruct (addVolunteerMarker_with_map v s m Hl) as (s' & m' & -> & Hl').
    exists s'. split; [reflexivity | intros _; exists m'; exact Hl'].
  - unfold addVolunteers.
    destruct (addEach_with_map vs s m Hl) as (s1 & m1 & -> & Hl1).
    unfold fitMapToMarkers. rewrite Hl1.
    destruct (markers s1); eexists; (split; [reflexivity |]); intros _.
    + exists m1. exact Hl1.
    + eexists. reflexivity.
  - unfold fitMapToMarkers. rewrite Hl.
    destruct (markers s); eexists; (split; [reflexivity |]); intros _.
    + exists m. exact Hl.
    + eexists. reflexivity.
  - unfold removeVolunteer. rewrite Hl.
    destruct (Map_get z (markers s)); eexists; (split; [reflexivity |]); intros _.
    + eexists. reflexivity.
    + exists m. exact Hl.
  - unfold clearMap. rewrite Hl.
    destruct (markers s); eexists; (split; [reflexivity |]); intros _.
    + exists m. exact Hl.
    + eexists. reflexivity.
  - unfold updateVolunteerLocation.
    destruct (find (has_id z) (volunteers s)) as [v|].
    + destruct (addVolunteerMarker_with_map
                  (mkVolunteer (id v) (name v) (status v) (role v) (phone v) (email v)
                               (Some la) (Some lo))
                  (set_volunteers (relocate z la lo (volunteers s)) s) m Hl)
        as (s' & m' & -> & Hl').
      exists s'. split; [reflexivity | intros _; exists m'; exact Hl'].
    + exists s. split; [reflexivity | intros _; exists m; exact Hl].
  - eexists. split; [reflexivity |]. intros _. unfold setView. rewrite Hl.
    eexists. reflexivity.
  - eexists. split; [reflexivity |]. intros Hc. destruct Hc. reflexivity.
Qed.

(** Without a Leaflet map (the container was not found, or after
    [destroy]) adding a well-formed volunteer throws and changes nothing,
    an ill-formed one is only logged, and every other method returns with
    the object as it was. *)
Theorem without_map (s : State) (v : Volunteer) :
  reachable toLowerCase s ->
  leafletMap s = None ->
  (forall z la lo, checked v = Some (z, la, lo) ->
     addVolunteerMarker toLowerCase v s = Raised s)
  /\ (checked v = None ->
      addVolunteerMarker toLowerCase v s = Done (log (InvalidVolunteer v) s))
  /\ fitMapToMarkers s = Done s
  /\ (forall z, removeVolunteer z s = Done s)
  /\ clearMap s = Done s
  /\ (forall z la lo, updateVolunteerLocation toLowerCase z la lo s = Done s)
  /\ (forall c z, setView c z s = s)
  /\ destroy s = s.
Proof.
  intros Hreach Hl.
  destruct (consistent_no_map s (reachable_consistent toLowerCase s Hreach) Hl) as [Hm Hv].
  destruct s as [cid lm mks vols opts st con]. cbn in Hl, Hm, Hv. subst.
  repeat split.
  - intros z la lo Hc. unfold addVolunteerMarker. rewrite Hc. reflexivity.
  - intros Hc. unfold addVolunteerMarker. rewrite Hc. reflexivity.
Qed.

(** Adding a volunteer whose id is new and removing that id again gives
    the object back as it was, but for the stamp Leaflet has used up. *)
Theorem add_then_remove (v : Volunteer) (s : State) (m : LeafletMap) (z : Z) (la lo : number) :
  reachable toLowerCase s ->
  leafletMap s = Some m ->
  checked v = Some (z, la, lo) ->
  Map_get z (markers s) = None ->
  exists s1,
    addVolunteerMarker toLowerCase v s = Done s1
    /\ getMarkerCount s1 = S (getMarkerCount s)
    /\ getVolunteers s1 = getVolunteers s ++ [v]
    /\ removeVolunteer z s1 = Done (set_stamp (S (stamp s)) s).
Proof.
  intros Hreach Hl Hc Hget.
  destruct (reachable_consistent toLowerCase s Hreach) as (Hk & _ & _ & Hlay).
  rewrite Hl in Hlay. destruct Hlay as (_ & _ & Hlt).
  pose proof (keys_in_step z (markers s) (volunteers s) Hk) as Hex. rewrite Hget in Hex.
  destruct s as [cid lm mks vols opts st con]. cbn in Hl, Hget, Hex, Hlt. subst lm.
  destruct m as [vw tl ls]. cbn in Hlt.
  unfold addVolunteerMarker. rewrite Hc. cbn. rewrite Hget. cbn. rewrite Hex.
  rewrite (Map_set_new z _ mks Hget).
  eexists. split; [reflexivity |].
  unfold getMarkerCount, getVolunteers. cbn.
  split; [rewrite length_app; cbn; lia |].
  split; [reflexivity |].
  unfold removeVolunteer. cbn.
  rewrite (Map_get_app_new z _ mks Hget). cbn.
  rewrite (Map_delete_app_new z _ mks Hget).
  unfold removeLayer. cbn.
  rewrite !List.filter_app. cbn.
  apply checked_Some in Hc as (Hid & _). unfold has_id at 2. rewrite Hid, Z.eqb_refl.
  rewrite Nat.eqb_refl. cbn. rewrite !app_nil_r.
  rewrite (no_volunteer_with_id z vols Hex).
  rewrite filter_keep_all; [reflexivity |].
  eapply Forall_impl; [exact Hlt |]. cbn. intros x Hx.
  apply negb_true_iff, Nat.eqb_neq. lia.
Qed.

Lemma relocate_In (z : Z) (la lo : number) (vols : list Volunteer) (v : Volunteer) :
  find (has_id z) vols = Some v ->
  In (mkVolunteer (id v) (name v) (status v) (role v) (phone v) (email v)
                  (Some la) (Some lo))
     (relocate z la lo vols).
Proof.
  induction vols as [|x vols IH]; cbn; [discriminate |].
  destruct (has_id z x).
  - intros Heq. injection Heq as ->. left. reflexivity.
  - intros Hfind. right. exact (IH Hfind).
Qed.

(** Adding a volunteer under an id that already has a marker replaces the
    marker (the old one leaves the Leaflet map, the new one is on it) and
    keeps the marker count; the volunteers array is left as it was, so it
    still holds the object stored first under that id. *)
Theorem add_again_replaces_marker
    (v : Volunteer) (s : State) (z : Z) (la lo : number) (old : Marker) :
  reachable toLowerCase s ->
  checked v = Some (z, la, lo) ->
  Map_get z (markers s) = Some old ->
  exists s' m',
    addVolunteerMarker toLowerCase v s = Done s'
    /\ getVolunteers s' = getVolunteers s
    /\ getMarkerCount s' = getMarkerCount s
    /\ Map_get z (markers s')
       = Some (mkMarker (stamp s) (la, lo) (generatePopupContent toLowerCase v))
    /\ leafletMap s' = Some m'
    /\ In (mkMarker (stamp s) (la, lo) (generatePopupContent toLowerCase v)) (layers m')
    /\ ~ In old (layers m').
Proof.
  intros Hreach Hc Hget.
  destruct (reachable_consistent toLowerCase s Hreach) as (Hk & _ & _ & Hlay).
  pose proof (keys_in_step z (markers s) (volunteers s) Hk) as Hex. rewrite Hget in Hex.
  destruct s as [cid lm mks vols opts st con]. cbn in Hget, Hex, Hlay, Hk.
  destruct lm as [m|]; [| subst mks; discriminate].
  destruct Hlay as (Hperm & _ & Hlt).
  unfold addVolunteerMarker. rewrite Hc. cbn. rewrite Hget. cbn. rewrite Hex.
  eexists. eexists. split; [reflexivity |].
  unfold getVolunteers, getMarkerCount. cbn.
  split; [reflexivity |].
  split; [exact (Map_set_length z _ old mks Hget) |].
  split; [apply Map_set_get |].
  split; [reflexivity |].
  split; [apply in_or_app; right; left; reflexivity |].
  intros Hin. apply in_app_or in Hin as [Hin|[Heq|[]]].
  - apply filter_In in Hin as [_ Hne]. rewrite Nat.eqb_refl in Hne. discriminate.
  - assert (Hold : In old (layers m)).
    { apply list_elem_of_In. rewrite <- Hperm. apply list_elem_of_In.
      apply in_map_iff. exists (z, old). split; [reflexivity |].
      exact (Map_get_Some z mks old Hget). }
    rewrite List.Forall_forall in Hlt. specialize (Hlt old Hold).
    rewrite <- Heq in Hlt. cbn in Hlt. lia.
Qed.

(** [updateVolunteerLocation] on a known id gives the stored volunteer the
    new coordinates and replaces its marker by one at the new position,
    with the popup of the updated volunteer; the counts do not change.  On
    an unknown id it does nothing. *)
Theorem updateVolunteerLocation_moves (z : Z) (la lo : number) (s : State) :
  reachable toLowerCase s ->
  (forall v,
     find (has_id z) (volunteers s) = Some v ->
     let moved := mkVolunteer (id v) (name v) (status v) (role v) (phone v) (email v)
                              (Some la) (Some lo) in
     exists s',
       updateVolunteerLocation toLowerCase z la lo s = Done s'
       /\ getVolunteers s' = relocate z la lo (getVolunteers s)
       /\ In moved (getVolunteers s')
       /\ map id (getVolunteers s') = map id (getVolunteers s)
       /\ getMarkerCount s' = getMarkerCount s
       /\ Map_get z (markers s')
          = Some (mkMarker (stamp s) (la, lo) (generatePopupContent toLowerCase moved)))
  /\ (find (has_id z) (volunteers s) = None ->
      updateVolunteerLocation toLowerCase z la lo s = Done s).
Proof.
  intros Hreach. split.
  - intros v Hfind moved.
    destruct (reachable_consistent toLowerCase s Hreach) as (Hk & _ & Hnz & Hlay).
    pose proof (keys_in_step z (markers s) (volunteers s) Hk) as Hex.
    assert (Htrue : existsb (has_id z) (volunteers s) = true).
    { apply existsb_exists. apply find_some in Hfind as [Hin Hid]. exists v. auto. }
    rewrite Htrue in Hex.
    destruct (Map_get z (markers s)) as [old|] eqn:Hget; [| discriminate].
    assert (Hz : z <> 0).
    { rewrite List.Forall_forall in Hnz.
      exact (Hnz (z, old) (Map_get_Some z _ old Hget)). }
    assert (Hc : checked moved = Some (z, la, lo)).
    { unfold checked, moved. cbn. rewrite (find_has_id z _ v Hfind).
      apply Z.eqb_neq in Hz. rewrite Hz. reflexivity. }
    pose proof (relocate_In z la lo (volunteers s) v Hfind) as Hmoved.
    unfold updateVolunteerLocation. rewrite Hfind. fold moved.
    destruct s as [cid lm mks vols opts st con]. cbn in Hget, Hk, Hlay, Htrue, Hmoved.
    destruct lm as [m|]; [| subst mks; discriminate].
    unfold addVolunteerMarker. rewrite Hc. cbn. rewrite Hget. cbn.
    rewrite (keys_in_step z mks (relocate z la lo vols)), Hget
      by (rewrite relocate_ids; exact Hk).
    eexists. split; [reflexivity |].
    unfold getVolunteers, getMarkerCount. cbn.
    split; [reflexivity |].
    split; [exact Hmoved |].
    split; [apply relocate_ids |].
    split; [exact (Map_set_length z _ old mks Hget) |].
    apply Map_set_get.
  - intros Hfind. unfold updateVolunteerLocation. rewrite Hfind. reflexivity.
Qed.

(** [destroy] leaves an object without a map, without markers and without
    volunteers, and a second [destroy] changes nothing. *)
Theorem destroy_empties (s : State) :
  reachable toLowerCase s ->
  leafletMap (destroy s) = None
  /\ getMarkerCount (destroy s) = 0%nat
  /\ getVolunteers (destroy s) = []
  /\ destroy (destroy s) = destroy s.
Proof.
  intros Hreach. pose proof (reachable_consistent toLowerCase s Hreach) as Hs.
  destruct (leafletMap s) as [m|] eqn:Hl.
  - destruct s as [cid lm mks vols opts st con]. cbn in Hl. subst lm.
    repeat split.
  - destruct (consistent_no_map s Hs Hl) as [Hm Hv].
    destruct s as [cid lm mks vols opts st con]. cbn in Hl, Hm, Hv. subst.
    repeat split.
Qed.

End MapClaims.

(** ** The properties on an example map *)

Lemma two_markers_reachable : reachable ascii_lower two_markers.
Proof.
  apply (reachable_call ascii_lower (CallAddVolunteers [ana; ben]) empty_map).
  apply reachable_construct.
Qed.

Lemma no_map_reachable : reachable ascii_lower no_map.
Proof. apply reachable_construct. Qed.

Lemma markers_match_volunteers_witness :
  getMarkerCount two_markers = 2%nat
  /\ map key_of (markers two_markers) = [Some 1; Some 2].
Proof.
  destruct (markers_match_volunteers ascii_lower two_markers two_markers_reachable)
    as (Hk & Hcount & _).
  split.
  - rewrite Hcount. vm_compute. reflexivity.
  - rewrite Hk. vm_compute. reflexivity.
Defined.

Lemma layers_match_markers_witness :
  exists m, leafletMap two_markers = Some m /\ length (layers m) = 2%nat.
Proof.
  pose proof (layers_match_markers ascii_lower two_markers two_markers_reachable) as H.
  destruct (leafletMap two_markers) as [m|] eqn:Hl.
  - destruct H as (_ & Hlen & _). exists m. split; [reflexivity |].
    rewrite Hlen. vm_compute. reflexivity.
  - vm_compute in Hl. discriminate.
Defined.

Lemma no_throw_with_map_witness :
  exists s', call ascii_lower CallClearMap two_markers = Done s'.
Proof.
  destruct (leafletMap two_markers) as [m|] eqn:Hl.
  - destruct (no_throw_with_map ascii_lower CallClearMap two_markers m Hl) as (s' & Hrun & _).
    exists s'. exact Hrun.
  - vm_compute in Hl. discriminate.
Defined.

Lemma without_map_witness :
  addVolunteerMarker ascii_lower ana no_map = Raised no_map
  /\ addVolunteerMarker ascii_lower nameless no_map
     = Done (log (InvalidVolunteer nameless) no_map)
  /\ clearMap no_map = Done no_map.
Proof.
  destruct (without_map ascii_lower no_map ana no_map_reachable eq_refl)
    as (Hadd & _ & _ & _ & Hclear & _).
  destruct (without_map ascii_lower no_map nameless no_map_reachable eq_refl)
    as (_ & Hbad & _).
  split; [| split].
  - apply (Hadd 1 (QArith_base.Qmake 10 1) (QArith_base.Qmake 20 1)). reflexivity.
  - apply Hbad. reflexivity.
  - exact Hclear.
Defined.

Lemma add_then_remove_witness :
  exists s1,
    addVolunteerMarker ascii_lower ana empty_map = Done s1
    /\ getMarkerCount s1 = 1%nat
    /\ removeVolunteer 1 s1 = Done (set_stamp 1 empty_map).
Proof.
  destruct (add_then_remove ascii_lower ana empty_map
              (mkLeafletMap
                 (SetView (QArith_base.Qmake 51505 1000, QArith_base.Qmake (-9) 100)
                          (QArith_base.Qmake 13 1))
                 (Some (mkTileLayer (tileLayer (options empty_map))
                          (attribution (options empty_map)) (QArith_base.Qmake 19 1)))
                 [])
              1 (QArith_base.Qmake 10 1) (QArith_base.Qmake 20 1)
              (reachable_construct ascii_lower _ _ _) eq_refl eq_refl eq_refl)
    as (s1 & Hadd & Hcount & _ & Hremove).
  exists s1. split; [exact Hadd |]. split; [exact Hcount | exact Hremove].
Defined.

Lemma add_again_replaces_marker_witness :
  exists s',
    addVolunteerMarker ascii_lower ana_moved two_markers = Done s'
    /\ getVolunteers s' = [ana; ben]
    /\ getMarkerCount s' = 2%nat.
Proof.
  destruct (add_again_replaces_marker ascii_lower ana_moved two_markers 1
              (QArith_base.Qmake 11 1) (QArith_base.Qmake 21 1)
              (mkMarker 0 (QArith_base.Qmake 10 1, QArith_base.Qmake 20 1)
                        (generatePopupContent ascii_lower ana))
              two_markers_reachable eq_refl ltac:(vm_compute; reflexivity))
    as (s' & m' & Hadd & Hvols & Hcount & _).
  exists s'. split; [exact Hadd |].
  split; [rewrite Hvols; vm_compute; reflexivity |].
  rewrite Hcount. vm_compute. reflexivity.
Defined.

Lemma updateVolunteerLocation_moves_witness :
  exists s',
    updateVolunteerLocation ascii_lower 2 (QArith_base.Qmake 31 1) (QArith_base.Qmake 41 1)
                            two_markers = Done s'
    /\ map id (getVolunteers s') = [Some 1; Some 2]
    /\ getMarkerCount s' = 2%nat.
Proof.
  destruct (updateVolunteerLocation_moves ascii_lower 2
              (QArith_base.Qmake 31 1) (QArith_base.Qmake 41 1)
              two_markers two_markers_reachable) as [Hknown _].
  destruct (Hknown ben ltac:(vm_compute; reflexivity))
    as (s' & Hrun & _ & _ & Hids & Hcount & _).
  exists s'. split; [exact Hrun |].
  split; [rewrite Hids; vm_compute; reflexivity |].
  rewrite Hcount. vm_compute. reflexivity.
Defined.

Lemma destroy_empties_witness :
  leafletMap (destroy two_markers) = None
  /\ getVolunteers (destroy two_markers) = [].
Proof.
  destruct (destroy_empties ascii_lower two_markers two_markers_reachable)
    as (Hmap & _ & Hvols & _).
  split; [exact Hmap | exact Hvols].
Defined.

End MapDisplayFacts.
